(** * DeepLearningCourse: pair/triplet sampling, negative mining and retrieval

    A shallow embedding of the hand-written list and array logic of the
    metric-learning notebooks:

    - [labs/09_triplet_loss/Face_Verification_Using_Triplet_Loss.ipynb]:
      [build_pos_pairs_for_id], [TripletGenerator], [most_sim], the cell
      that fills [test_ids], [recall_k], [build_similarities], [intersect]
      and [build_negatives];
    - [labs/09_triplet_loss/Face_Verification_Using_Siamese_Nets.ipynb]:
      [build_pos_pairs_for_id] and [build_neg_pairs_for_id];
    - the Totally-Looks-Like notebook ([unnamed/part_000]): [most_similar].

    Conventions.
    - Image ids and class ids are [nat]; the notebook dictionaries are
      [gmap]s, the Python sets are [gset]s.
    - numpy floating-point arrays are lists of exact reals ([R]): rounding,
      NaN and infinities are not modelled.
    - A Python exception is a value of [exn]; code that may raise returns
      a [result].
    - Code that calls the [random] module denotes a finite distribution
      ([Rand]): a list of weighted outcomes, the weight of an outcome being
      its probability.  Each library call ([random.choice], [random.sample],
      [random.shuffle], [random.randint]) is the uniform distribution the
      library documents.  Deterministic code is a distribution with one
      outcome.

    The first part holds the definitions (the model of the libraries, the
    functions of the notebooks, the predicates of the statements and the
    example data); the second part holds the lemmas and, for each claim
    C1..C10 about the notebooks, its theorem. *)

From Stdlib Require Import Reals Lra Lia QArith Qcanon.
From stdpp Require Import base list gmap strings sorting.

(* ================================================================= *)
(** ** Python exceptions and results *)

Inductive exn : Type :=
  | KeyError
  | IndexError
  | ValueError
  | ZeroDivisionError.

Inductive result (A : Type) : Type :=
  | Ok (a : A)
  | Raise (e : exn).
Arguments Ok {A} a.
Arguments Raise {A} e.

(* ================================================================= *)
(** ** Finite distributions over results *)

Definition Rand (A : Type) : Type := list (Qc * result A).

Definition Qc_of_nat (n : nat) : Qc := Q2Qc (inject_Z (Z.of_nat n)).

Definition ret {A} (a : A) : Rand A := [(1%Qc, Ok a)].

Definition raise {A} (e : exn) : Rand A := [(1%Qc, Raise e)].

Definition scale {A} (w : Qc) (m : Rand A) : Rand A :=
  map (λ vr, ((w * vr.1)%Qc, vr.2)) m.

Definition bind {A B} (m : Rand A) (f : A → Rand B) : Rand B :=
  flat_map (λ wr, match wr.2 with
                  | Ok a => scale wr.1 (f a)
                  | Raise e => [(wr.1, Raise e)]
                  end) m.

Notation "'let!' x ':=' m 'in' k" := (bind m (λ x, k))
  (at level 10, x pattern, m at level 100, k at level 200, only parsing).

(** A dictionary or list access that raises when the key is absent. *)
Definition lift {A} (e : exn) (o : option A) : Rand A :=
  match o with Some a => ret a | None => raise e end.

(** The uniform distribution over the positions of a list. *)
Definition uniform {A} (l : list A) : Rand A :=
  map (λ x, ((1 / Qc_of_nat (length l))%Qc, Ok x)) l.

(** [random.choice(seq)]: [IndexError] on an empty sequence. *)
Definition choice {A} (l : list A) : Rand A :=
  match l with [] => raise IndexError | _ => uniform l end.

(** [random.randint(a, b)]: an integer of [a..b], both ends included;
    [ValueError] on an empty range. *)
Definition randint (a b : Z) : Rand Z :=
  if (b <? a)%Z then raise ValueError
  else uniform (seqZ a (b - a + 1)).

(** The ordered selections of [k] positions of [l] without repetition. *)
Fixpoint arrangements {A} (k : nat) (l : list A) : list (list A) :=
  match k with
  | O => [[]]
  | S k' =>
      flat_map (λ i, match l !! i with
                     | Some x => map (cons x) (arrangements k' (delete i l))
                     | None => []
                     end) (seq 0 (length l))
  end.

(** [random.sample(population, k)]: [k] draws without replacement;
    [ValueError] when the sample is larger than the population. *)
Definition sample {A} (l : list A) (k : nat) : Rand (list A) :=
  if length l <? k then raise ValueError
  else uniform (arrangements k l).

(** [random.shuffle(x)]: every ordering of the positions is equally likely
    (the model returns the shuffled list instead of updating in place). *)
Definition shuffle {A} (l : list A) : Rand (list A) :=
  uniform (permutations l).

(** A [for] loop whose body appends one element per iteration. *)
Fixpoint for_each {A B} (l : list A) (body : A → Rand B) : Rand (list B) :=
  match l with
  | [] => ret []
  | a :: l' =>
      let! b := body a in
      let! bs := for_each l' body in
      ret (b :: bs)
  end.

(** The probability of an event. *)
Definition prob {A} (P : result A → bool) (m : Rand A) : Qc :=
  foldr (λ wr acc, if P wr.2 then (wr.1 + acc)%Qc else acc) 0%Qc m.

Definition indicator (b : bool) : Qc := if b then 1%Qc else 0%Qc.

(** The total weight of the outcomes. *)
Definition mass {A} (m : Rand A) : Qc := prob (λ _, true) m.

(** The expectation of [g] over the outcomes. *)
Definition expect {A} (g : result A → Qc) (m : Rand A) : Qc :=
  foldr (λ wr acc, (wr.1 * g wr.2 + acc)%Qc) 0%Qc m.

(** The probability of the event [P] after [f], given an outcome of the
    first computation. *)
Definition cont_prob {A B} (P : result B → bool) (f : A → Rand B)
    (r : result A) : Qc :=
  match r with
  | Ok a => prob P (f a)
  | Raise e => indicator (P (Raise e))
  end.

Definition Qc_sum {A} (g : A → Qc) (l : list A) : Qc :=
  foldr (λ a acc, (g a + acc)%Qc) 0%Qc l.

(** [returns m P]: [m] has an outcome, no outcome is an exception, and every
    outcome satisfies [P]. *)
Definition returns {A} (m : Rand A) (P : A → Prop) : Prop :=
  m ≠ [] ∧ ∀ w r, (w, r) ∈ m → ∃ a, r = Ok a ∧ P a.

(** [outcomes_sat m P E]: every value [m] may return satisfies [P] and every
    exception it may raise satisfies [E]. *)
Definition outcomes_sat {A} (m : Rand A) (P : A → Prop) (E : exn → Prop)
    : Prop :=
  ∀ w r, (w, r) ∈ m → match r with Ok a => P a | Raise e => E e end.

(** [raises m e]: [m] has an outcome and every outcome is the exception [e]. *)
Definition raises {A} (m : Rand A) (e : exn) : Prop :=
  m ≠ [] ∧ ∀ w r, (w, r) ∈ m → r = Raise e.

(* ================================================================= *)
(** ** numpy on exact reals *)

#[global] Instance Rle_decision : RelDecision Rle := Rle_dec.
#[global] Instance Rlt_decision : RelDecision Rlt := Rlt_dec.
#[global] Instance Rgt_decision : RelDecision Rgt := Rgt_dec.

Abbreviation vector := (list R).
Abbreviation matrix := (list (list R)).

(** [np.dot(u, v)] on two vectors. *)
Definition dot (u v : vector) : R :=
  foldr Rplus 0%R (zip_with Rmult u v).

(** [np.linalg.norm(v)]. *)
Definition norm (v : vector) : R := sqrt (dot v v).

(** [v / c] with a scalar [c]. *)
Definition vdiv (v : vector) (c : R) : vector := map (λ a, (a / c)%R) v.

(** [u - v], elementwise. *)
Definition vsub (u v : vector) : vector := zip_with Rminus u v.


(** [np.dot(m, x)] of a matrix and a vector: one dot product per row. *)
Definition matvec (m : matrix) (x : vector) : vector :=
  map (λ row, dot row x) m.


(** [np.where(cond)[0]] on a one-dimensional boolean array. *)
Definition np_where (cond : list bool) : list nat :=
  filter (λ i, cond !! i = Some true) (seq 0 (length cond)).

(** [np.argsort(keys)]: the indices that sort [keys] in ascending order
    (insertion sort, which is what numpy runs on short arrays; ties keep
    their original order). *)
Fixpoint insert_sorted (keys : nat → R) (i : nat) (l : list nat) : list nat :=
  match l with
  | [] => [i]
  | j :: l' =>
      if bool_decide (keys i <= keys j)%R then i :: j :: l'
      else j :: insert_sorted keys i l'
  end.

Definition key_of (keys : vector) (i : nat) : R := default 0%R (keys !! i).

Definition argsort (keys : vector) : list nat :=
  foldr (insert_sorted (key_of keys)) [] (seq 0 (length keys)).

(* ================================================================= *)
(** ** Positive and negative pairs (Siamese and triplet notebooks) *)

(** [itertools.combinations(imgs, 2)]. *)
Fixpoint combinations2 {A} (l : list A) : list (A * A) :=
  match l with
  | [] => []
  | x :: l' => map (pair x) l' ++ combinations2 l'
  end.

(** [build_pos_pairs_for_id(classid, max_num=50)]; the two notebooks define
    the same function.  [classid_to_ids] is the notebook global. *)
Definition build_pos_pairs_for_id (classid_to_ids : gmap nat (list nat))
    (classid max_num : nat) : Rand (list (nat * nat)) :=
  let! imgs := lift KeyError (classid_to_ids !! classid) in
  if bool_decide (length imgs = 1) then ret []
  else
    let pos_pairs := combinations2 imgs in
    let! pos_pairs := shuffle pos_pairs in
    ret (take max_num pos_pairs).

(** [list.remove(x)]: drops the first occurrence. *)
Fixpoint remove_first (x : nat) (l : list nat) : list nat :=
  match l with
  | [] => []
  | y :: l' => if bool_decide (y = x) then l' else y :: remove_first x l'
  end.

(** [imgs[random.randint(0, len(imgs) - 1)]]. *)
Definition random_element (imgs : list nat) : Rand nat :=
  let! r := randint 0 (Z.of_nat (length imgs) - 1) in
  lift IndexError (imgs !! Z.to_nat r).

(** [build_neg_pairs_for_id(classid, classes, max_num=20)]. *)
Definition build_neg_pairs_for_id (classid_to_ids : gmap nat (list nat))
    (classid : nat) (classes : list nat) (max_num : nat)
    : Rand (list (nat * nat)) :=
  let! imgs := lift KeyError (classid_to_ids !! classid) in
  let! neg_classes_ids := sample classes (max_num + 1) in
  let neg_classes_ids :=
    if bool_decide (classid ∈ neg_classes_ids)
    then remove_first classid neg_classes_ids
    else neg_classes_ids in
  for_each (seq 0 max_num) (λ id2,
    let! img1 := random_element imgs in
    let! class2 := lift IndexError (neg_classes_ids !! id2) in
    let! imgs2 := lift KeyError (classid_to_ids !! class2) in
    let! img2 := random_element imgs2 in
    ret (img1, img2)).

(* ================================================================= *)
(** ** TripletGenerator *)

(** The fields the batching logic reads.  [num_samples] is
    [Xa_train.shape[0]]. *)
Record TripletGenerator : Type := {
  Xa : list nat;
  Xp : list nat;
  batch_size : nat;
  neg_imgs_idx : list nat
}.

Definition num_samples (g : TripletGenerator) : nat := length (Xa g).

(** [x[low:high]] for [0 <= low]. *)
Definition slice {A} (l : list A) (low high : nat) : list A :=
  take (high - low) (drop low l).

(** [__len__]: [self.num_samples // self.batch_size]. *)
Definition TripletGenerator_len (g : TripletGenerator) : Rand nat :=
  if bool_decide (batch_size g = 0) then raise ZeroDivisionError
  else ret (num_samples g / batch_size g).

(** [__getitem__], up to the image ids of the batch: the anchors, the
    positives and the negatives.  The source then gathers [self.imgs[ids]]
    and augments, one image per id. *)
Definition TripletGenerator_getitem (g : TripletGenerator) (batch_index : nat)
    : Rand (list nat * list nat * list nat) :=
  let low_index := batch_index * batch_size g in
  let high_index := (batch_index + 1) * batch_size g in
  let imgs_a := slice (Xa g) low_index high_index in
  let imgs_p := slice (Xp g) low_index high_index in
  let! imgs_n := sample (neg_imgs_idx g) (length imgs_a) in
  ret (imgs_a, imgs_p, imgs_n).

(* ================================================================= *)
(** ** Nearest neighbours and recall at k *)

(** [most_sim(idx, topn=5, mode="cosine")]; [emb] and [pixelwise] are the
    notebook globals. *)
Definition most_sim (emb pixelwise : matrix) (idx topn : nat) (mode : string)
    : Rand (list (nat * R)) :=
  let! x := lift IndexError (emb !! idx) in
  if bool_decide (mode = "cosine"%string) then
    let x := vdiv x (norm x) in
    let sims := matvec emb x in
    let ids := reverse (argsort sims) in
    ret (map (λ id, (id, key_of sims id)) (take topn ids))
  else if bool_decide (mode = "euclidean"%string) then
    let dists := map (λ e, norm (vsub e x)) emb in
    let ids := argsort dists in
    ret (map (λ id, (id, key_of dists id)) (take topn ids))
  else
    let! p := lift IndexError (pixelwise !! idx) in
    let dists := map (λ e, norm (vsub e p)) pixelwise in
    let ids := argsort dists in
    ret (map (λ id, (id, key_of dists id)) (take topn ids)).

(** The cell that fills [test_ids]. *)
Definition build_test_ids (classid_to_ids : gmap nat (list nat))
    (split_num num_classes : nat) : Rand (list nat) :=
  let! chunks :=
    for_each (seq split_num (num_classes - 1 - split_num)) (λ class_id,
      let! img_ids := lift KeyError (classid_to_ids !! class_id) in
      ret (if bool_decide (1 < length img_ids) then img_ids else [])) in
  ret (concat chunks).

(** [[id_to_classid[x] for x in xs]]. *)
Definition classes_of (id_to_classid : gmap nat nat) (xs : list nat)
    : Rand (list nat) :=
  for_each xs (λ x, lift KeyError (id_to_classid !! x)).

(** The notebook globals [recall_k] reads. *)
Record globals : Type := {
  id_to_classid : gmap nat nat;
  emb : matrix;
  pixelwise : matrix;
  test_ids : list nat;
  all_img_train_idx : list nat;
  all_img_test_idx : list nat
}.

(** The body of the loop of [recall_k]: whether the class of [img_idx] is
    among the classes found. *)
Definition recall_hit (G : globals) (k : nat) (mode : string) (img_idx : nat)
    : Rand bool :=
  let! image_class := lift KeyError (id_to_classid G !! img_idx) in
  let! found_classes :=
    if bool_decide (mode = "embedding"%string) then
      let! res := most_sim (emb G) (pixelwise G) img_idx (k + 1) "cosine" in
      classes_of (id_to_classid G) (map fst (drop 1 res))
    else if bool_decide (mode = "random"%string) then
      let pool : gset nat :=
        list_to_set (all_img_test_idx G ++ all_img_train_idx G) ∖ {[img_idx]} in
      let! xs := sample (elements pool) k in
      classes_of (id_to_classid G) xs
    else if bool_decide (mode = "image"%string) then
      let! res := most_sim (emb G) (pixelwise G) img_idx (k + 1) "image" in
      classes_of (id_to_classid G) (map fst (drop 1 res))
    else ret [] in
  ret (bool_decide (image_class ∈ found_classes)).

(** The loop of [recall_k], carrying [num_found]; [hit] is the loop body. *)
Fixpoint count_hits (hit : nat → Rand bool) (ids : list nat)
    (num_found : nat) : Rand nat :=
  match ids with
  | [] => ret num_found
  | img_idx :: ids' =>
      let! found := hit img_idx in
      count_hits hit ids' (if found then num_found + 1 else num_found)
  end.

(** The loop followed by [return num_found / len(test_ids)]. *)
Definition recall_fraction (hit : nat → Rand bool) (test_ids : list nat)
    : Rand R :=
  let! num_found := count_hits hit test_ids 0 in
  if bool_decide (length test_ids = 0) then raise ZeroDivisionError
  else ret (INR num_found / INR (length test_ids))%R.

(** [recall_k(k=10, mode="embedding")]. *)
Definition recall_k (G : globals) (k : nat) (mode : string) : Rand R :=
  recall_fraction (recall_hit G k mode) (test_ids G).

(** [tf.sqrt(tf.reduce_sum((all_embeddings - new_emb)**2, -1))]. *)
Definition embedding_dists (all_embeddings : matrix) (new_emb : vector)
    : vector :=
  map (λ e, sqrt (foldr Rplus 0 (map (λ d, d ^ 2) (vsub e new_emb))))%R
      all_embeddings.

(** [most_similar(img, topn=5)] of the Totally-Looks-Like notebook.
    [embed img] stands for
    [loaded_model.predict(preprocess(open_image(img)))]. *)
Definition most_similar {path : Type} (embed : path → vector)
    (negative_images : list path) (all_embeddings : matrix)
    (img : path) (topn : nat) : Rand (list (path * R)) :=
  let new_emb := embed img in
  let dists := embedding_dists all_embeddings new_emb in
  let idxs := take topn (argsort dists) in
  for_each idxs (λ idx,
    let! p := lift IndexError (negative_images !! idx) in
    ret (p, key_of dists idx)).

(* ================================================================= *)
(** ** Hard negative mining *)


(** [intersect(a, b)]: [list(set(a) & set(b))]. *)
Definition intersect (a b : list nat) : list nat :=
  elements (list_to_set a ∩ list_to_set b : gset nat).

(** The retry loop of [build_negatives]: [Some idx_neg] when a negative was
    appended, [None] when the loop ended with [appended = False]. *)
Fixpoint retry_loop (id_to_classid : gmap nat nat) (anchor_class : nat)
    (possible_ids : list nat) (num_retries : nat) : Rand (option nat) :=
  match num_retries with
  | O => ret None
  | S n =>
      if bool_decide (length possible_ids = 0) then ret None
      else
        let! idx_neg := choice possible_ids in
        let! c := lift KeyError (id_to_classid !! idx_neg) in
        if bool_decide (c ≠ anchor_class) then ret (Some idx_neg)
        else retry_loop id_to_classid anchor_class possible_ids n
  end.

(** [possible_ids] for one pair. *)
Definition semi_hard_ids (row : vector) (sim : R) (neg_imgs_idx : list nat)
    : list nat :=
  let possible_ids :=
    np_where (map (λ s, bool_decide (s + 0.25 > sim)%R) row) in
  intersect neg_imgs_idx possible_ids.

(** One iteration of the outer loop of [build_negatives]: the negative for
    one pair together with the [appended] flag ([true]: mined, [false]:
    random fallback). *)
Definition negative_for_pair (id_to_classid : gmap nat nat)
    (similarities : matrix) (neg_imgs_idx : list nat) (num_retries : nat)
    (anc_idx pos_idx : nat) : Rand (nat * bool) :=
  let! anchor_class := lift KeyError (id_to_classid !! anc_idx) in
  let! row := lift IndexError (similarities !! anc_idx) in
  let! sim := lift IndexError (row !! pos_idx) in
  let possible_ids := semi_hard_ids row sim neg_imgs_idx in
  let! mined :=
    retry_loop id_to_classid anchor_class possible_ids num_retries in
  match mined with
  | Some idx_neg => ret (idx_neg, true)
  | None =>
      let! idx := choice neg_imgs_idx in
      ret (idx, false)
  end.

(** [build_negatives(anc_idxs, pos_idxs, similarities, neg_imgs_idx,
    num_retries=20)]. *)
Definition build_negatives (id_to_classid : gmap nat nat)
    (anc_idxs pos_idxs : list nat) (similarities : option matrix)
    (neg_imgs_idx : list nat) (num_retries : nat) : Rand (list nat) :=
  match similarities with
  | None => sample neg_imgs_idx (length anc_idxs)
  | Some sims =>
      for_each (zip anc_idxs pos_idxs) (λ ap,
        let! r := negative_for_pair id_to_classid sims neg_imgs_idx num_retries
                    ap.1 ap.2 in
        ret r.1)
  end.

(* ================================================================= *)
(** ** Events and predicates used in the statements *)









(** The inputs [build_negatives] is called on: one positive per anchor,
    every anchor has a label and a row of [similarities] that covers its
    positive, and every pool image has a label. *)
Definition mining_inputs_ok (id_to_classid : gmap nat nat)
    (similarities : matrix) (anc_idxs pos_idxs neg_imgs_idx : list nat)
    : Prop :=
  Forall2 (λ a p, is_Some (id_to_classid !! a) ∧
                  ∃ row, similarities !! a = Some row ∧ is_Some (row !! p))
          anc_idxs pos_idxs ∧
  Forall (λ x, is_Some (id_to_classid !! x)) neg_imgs_idx.

(** [order] holds, exactly once each, the pairs made of an image of [imgs]
    and a later image of [imgs]: all the 2-combinations of the class. *)
Definition lists_all_pairs (imgs : list nat) (order : list (nat * nat))
    : Prop :=
  NoDup order ∧
  ∀ a b, (a, b) ∈ order ↔
         ∃ i j, i < j ∧ imgs !! i = Some a ∧ imgs !! j = Some b.

(** [res] lists the [topn] best entries of [keys] for the order [better]:
    [topn] pairs of distinct indices, each with its own key, in order, and
    no index left out is strictly better than a listed one. *)
Definition is_top (better : R → R → Prop) (keys : vector) (topn : nat)
    (res : list (nat * R)) : Prop :=
  length res = topn ∧
  NoDup res.*1 ∧
  (∀ i s, (i, s) ∈ res → keys !! i = Some s) ∧
  StronglySorted (λ a b, better a.2 b.2) res ∧
  (∀ i s j sj, (i, s) ∈ res → keys !! j = Some sj → j ∉ res.*1 →
               better s sj).

(** Non-increasing and non-decreasing order of scores. *)
Definition at_least (a b : R) : Prop := (b <= a)%R.
Definition at_most (a b : R) : Prop := (a <= b)%R.

(** The dot products of all embeddings against the normalized embedding of
    the query, and the Euclidean distances of all embeddings to a vector. *)
Definition cosine_sims (emb : matrix) (x : vector) : vector :=
  matvec emb (vdiv x (norm x)).

Definition euclidean_dists (emb : matrix) (x : vector) : vector :=
  map (λ e, norm (vsub e x)) emb.

(** ** Similarity and distance, coordinate by coordinate

    The quantities the statements on [most_sim] and [most_similar] rank by,
    written out on the coordinates of vectors of dimension [d] with the
    functions of the libraries only ([nth], [sqrt], a sum over
    [0 .. d - 1]); they use none of the functions of the model ([dot],
    [norm], [vsub], [vdiv], [matvec]). *)
Definition coordinate (v : vector) (k : nat) : R := nth k v 0%R.

Definition sum_coordinates (d : nat) (f : nat → R) : R :=
  foldr Rplus 0%R (map f (seq 0 d)).

(** The Euclidean distance: the square root of the sum of the squared
    differences of the coordinates. *)
Definition euclidean_distance (d : nat) (u v : vector) : R :=
  sqrt (sum_coordinates d (λ k, (coordinate u k - coordinate v k) ^ 2))%R.

(** The Euclidean norm. *)
Definition euclidean_norm (d : nat) (v : vector) : R :=
  sqrt (sum_coordinates d (λ k, coordinate v k ^ 2))%R.

(** The dot product of [e] and the normalized query [x / |x|]. *)
Definition cosine_score (d : nat) (e x : vector) : R :=
  sum_coordinates d
    (λ k, coordinate e k * (coordinate x k / euclidean_norm d x))%R.



(** The globals are well formed for retrieval: every query has an
    embedding and every embedded image has a label. *)
Definition retrieval_ok (G : globals) : Prop :=
  (∀ q, q ∈ test_ids G → q < length (emb G)) ∧
  (∀ i, i < length (emb G) → is_Some (id_to_classid G !! i)).

(** ** Recall at k as the spec words it

    The retrieved list of a query is the ranking of all images by
    [most_sim] with the query itself removed, cut to its first [k]
    entries. *)
Definition recall_hit_spec (G : globals) (k : nat) (img_idx : nat)
    : Rand bool :=
  let! image_class := lift KeyError (id_to_classid G !! img_idx) in
  let! ranking :=
    most_sim (emb G) (pixelwise G) img_idx (length (emb G)) "cosine" in
  let retrieved := take k (filter (λ x, x ≠ img_idx) (map fst ranking)) in
  let! found_classes := classes_of (id_to_classid G) retrieved in
  ret (bool_decide (image_class ∈ found_classes)).

Definition recall_k_spec (G : globals) (k : nat) : Rand R :=
  recall_fraction (recall_hit_spec G k) (test_ids G).

(** [np.argsort] on integer keys: the same insertion sort, computable. *)
Fixpoint insert_sortedZ (keys : nat → Z) (i : nat) (l : list nat) : list nat :=
  match l with
  | [] => [i]
  | j :: l' =>
      if bool_decide (keys i ≤ keys j)%Z then i :: j :: l'
      else j :: insert_sortedZ keys i l'
  end.

Definition key_ofZ (keys : list Z) (i : nat) : Z := default 0%Z (keys !! i).

Definition argsortZ (keys : list Z) : list nat :=
  foldr (insert_sortedZ (key_ofZ keys)) [] (seq 0 (length keys)).

(** The vector of the fifths [z / 5]. *)
Definition fifths (zs : list Z) : vector := map (λ z, IZR z / 5)%R zs.

(* ================================================================= *)
(** ** Example data *)

(** A small data set: images 0 and 1 of class 0, image 2 of class 1. *)
Definition example_classes : gmap nat nat :=
  <[0 := 0]> (<[1 := 0]> (<[2 := 1]> ∅)).

Definition example_sims : matrix :=
  [ [1; 0.9; 0.8]; [0.9; 1; 0.7]; [0.8; 0.7; 1] ]%R.


Definition example_pool : list nat := [0; 1; 2].

(** Three classes: images 0 and 1, image 2, image 3. *)
Definition example_classid_to_ids : gmap nat (list nat) :=
  <[0 := [0; 1]]> (<[1 := [2]]> (<[2 := [3]]> ∅)).

(** The six positive pairs of one class of four images, its four images as
    the negative pool, and one batch of six. *)
Definition example_generator : TripletGenerator :=
  {| Xa := [0; 0; 0; 1; 1; 2];
     Xp := [1; 2; 3; 2; 3; 3];
     batch_size := 6;
     neg_imgs_idx := [0; 1; 2; 3] |}.

(** The same pairs with a batch size of zero. *)
Definition example_generator_zero : TripletGenerator :=
  {| Xa := [0; 0; 0; 1; 1; 2];
     Xp := [1; 2; 3; 2; 3; 3];
     batch_size := 0;
     neg_imgs_idx := [0; 1; 2; 3] |}.

(** The same pairs in batches of four. *)
Definition example_generator_ok : TripletGenerator :=
  {| Xa := [0; 0; 0; 1; 1; 2];
     Xp := [1; 2; 3; 2; 3; 3];
     batch_size := 4;
     neg_imgs_idx := [0; 1; 2; 3] |}.

(** Two orthogonal unit embeddings. *)
Definition example_emb : matrix := [ [1; 0]; [0; 1] ]%R.


(** Globals for the class dictionary [example_classid_to_ids] with the test
    range [0 .. 0]: the queries are images 0 and 1. *)
Definition example_globals : globals :=
  {| id_to_classid := <[0 := 0]> (<[1 := 0]> (<[2 := 1]> (<[3 := 2]> ∅)));
     emb := [ [1; 0]; [0; 1]; [1; 0]; [0; 1] ]%R;
     pixelwise := [ [1; 0]; [0; 1]; [1; 0]; [0; 1] ]%R;
     test_ids := [0; 1];
     all_img_train_idx := [2; 3];
     all_img_test_idx := [0; 1] |}.

(** ** Two images with the same embedding

    Eleven classes; [split_num = int(11 * 0.8) = 8], so the test range is
    classes 8 and 9.  Classes 0..7 and 10 have one image each (ids 0..7 and
    12); class 8 has images 8 and 9, class 9 has images 10 and 11.  Images 9
    (class 8) and 10 (class 9) have the same unit embedding (1, 0); image 8
    has (0, 1), image 11 has (-3/5, 4/5), all others (0, -1). *)
Definition twin_classid_to_ids : gmap nat (list nat) :=
  list_to_map
    [ (0, [0]); (1, [1]); (2, [2]); (3, [3]); (4, [4]); (5, [5]); (6, [6]);
      (7, [7]); (8, [8; 9]); (9, [10; 11]); (10, [12]) ].

Definition twin_id_to_classid : gmap nat nat :=
  list_to_map
    [ (0, 0); (1, 1); (2, 2); (3, 3); (4, 4); (5, 5); (6, 6); (7, 7);
      (8, 8); (9, 8); (10, 9); (11, 9); (12, 10) ].

Definition twin_emb : matrix :=
  [ [0; -1]; [0; -1]; [0; -1]; [0; -1]; [0; -1]; [0; -1]; [0; -1]; [0; -1];
    [0; 1]; [1; 0]; [1; 0]; [-3 / 5; 4 / 5]; [0; -1] ]%R.

Definition twin_globals : globals :=
  {| id_to_classid := twin_id_to_classid;
     emb := twin_emb;
     pixelwise := twin_emb;
     test_ids := [8; 9; 10; 11];
     all_img_train_idx := [];
     all_img_test_idx := [8; 9; 10; 11] |}.

(* ================================================================= *)
(** * Reasoning about distributions *)

Section scale_facts.
Context {A : Type}.
Implicit Types (m : Rand A).

Lemma elem_of_scale (v w : Qc) (r : result A) m :
  (w, r) ∈ scale v m ↔ ∃ w', w = (v * w')%Qc ∧ (w', r) ∈ m.
Proof.
  unfold scale. rewrite list_elem_of_fmap. split.
  - intros [[w' r'] [Heq Hin]]. simpl in Heq. inversion Heq; subst. eauto.
  - intros (w' & -> & Hin). by exists (w', r).
Qed.

Lemma scale_nil_inv (v : Qc) m : scale v m = [] → m = [].
Proof. unfold scale. by destruct m. Qed.
End scale_facts.

Section rand_facts.
Context {A B : Type}.
Implicit Types (m : Rand A) (f : A → Rand B) (P : A → Prop).

Lemma elem_of_bind (w : Qc) (r : result B) m f :
  (w, r) ∈ bind m f ↔
    (∃ e, r = Raise e ∧ (w, Raise e) ∈ m) ∨
    (∃ v a w', (v, Ok a) ∈ m ∧ (w', r) ∈ f a ∧ w = (v * w')%Qc).
Proof.
  unfold bind. rewrite list_elem_of_In, in_flat_map. split.
  - intros ([v [a | e]] & Hin & Hr); cbn [fst snd] in Hr;
      apply list_elem_of_In in Hin, Hr.
    + apply elem_of_scale in Hr as (w' & -> & Hr). right. by exists v, a, w'.
    + apply list_elem_of_singleton in Hr. inversion Hr; subst. left. eauto.
  - intros [(e & -> & Hin) | (v & a & w' & Hin & Hr & ->)].
    + exists (w, Raise e). split; [by apply list_elem_of_In |]. simpl. by left.
    + exists (v, Ok a). split; [by apply list_elem_of_In |]. simpl.
      apply list_elem_of_In, elem_of_scale. eauto.
Qed.

Lemma returns_ret (a : A) P : P a → returns (ret a) P.
Proof.
  intros Ha. split; [done |]. intros w r Hin.
  apply list_elem_of_singleton in Hin. inversion Hin; subst. eauto.
Qed.

Lemma returns_weaken m (P Q : A → Prop) :
  returns m P → (∀ a, P a → Q a) → returns m Q.
Proof.
  intros [Hne Hall] HPQ. split; [done |]. intros w r Hin.
  destruct (Hall w r Hin) as (a & -> & Ha). eauto.
Qed.

Lemma returns_bind m f P (Q : B → Prop) :
  returns m P → (∀ a, P a → returns (f a) Q) → returns (bind m f) Q.
Proof.
  intros [Hne Hall] Hf. split.
  - destruct m as [| [v r] m']; [done |].
    destruct (Hall v r) as (a & -> & Ha); [left |].
    destruct (Hf a Ha) as [Hfne _]. unfold bind. simpl.
    intros Hnil. apply app_eq_nil in Hnil as [Hnil _].
    apply scale_nil_inv in Hnil. done.
  - intros w r Hin. apply elem_of_bind in Hin
      as [(e & -> & Hin) | (v & a & w' & Hin & Hr & ->)].
    + destruct (Hall w _ Hin) as (a & Heq & _). done.
    + destruct (Hall v _ Hin) as (a' & Heq & Ha). inversion Heq; subst.
      destruct (Hf a' Ha) as [_ Hfall]. eauto.
Qed.

Lemma returns_lift (e : exn) (o : option A) (a : A) P :
  o = Some a → P a → returns (lift e o) P.
Proof. intros -> Ha. by apply returns_ret. Qed.

Lemma returns_uniform (l : list A) P :
  l ≠ [] → (∀ a, a ∈ l → P a) → returns (uniform l) P.
Proof.
  intros Hne Hall. split.
  - unfold uniform. by destruct l.
  - intros w r Hin. unfold uniform in Hin.
    apply list_elem_of_fmap in Hin as (a & Heq & Hin).
    inversion Heq; subst. eauto.
Qed.

Lemma returns_choice (l : list A) P :
  l ≠ [] → (∀ a, a ∈ l → P a) → returns (choice l) P.
Proof.
  intros Hne Hall. destruct l as [| x l']; [done |].
  by apply returns_uniform.
Qed.

Lemma returns_elem m P w (a : A) :
  returns m P → (w, Ok a) ∈ m → P a.
Proof.
  intros [_ Hall] Hin. destruct (Hall _ _ Hin) as (a' & Heq & Ha).
  by inversion Heq; subst.
Qed.

Lemma returns_not_raise m P w e :
  returns m P → (w, Raise e) ∉ m.
Proof.
  intros [_ Hall] Hin. by destruct (Hall _ _ Hin) as (a' & Heq & _).
Qed.

Lemma raises_raise (e : exn) : raises (raise e : Rand A) e.
Proof.
  split; [done |]. intros w r Hin.
  apply list_elem_of_singleton in Hin. by inversion Hin.
Qed.

Lemma raises_bind_l m f e : raises m e → raises (bind m f) e.
Proof.
  intros [Hne Hall]. split.
  - destruct m as [| [v r] m']; [done |].
    rewrite (Hall v r) by left. done.
  - intros w r Hin. apply elem_of_bind in Hin
      as [(e' & -> & Hin) | (v & a & w' & Hin & Hr & ->)].
    + specialize (Hall _ _ Hin). by inversion Hall.
    + by specialize (Hall _ _ Hin).
Qed.

Lemma raises_bind_r m f P e :
  returns m P → (∀ a, P a → raises (f a) e) → raises (bind m f) e.
Proof.
  intros [Hne Hall] Hf. split.
  - destruct m as [| [v r] m']; [done |].
    destruct (Hall v r) as (a & -> & Ha); [left |].
    destruct (Hf a Ha) as [Hfne _]. unfold bind. simpl.
    intros Hnil. apply app_eq_nil in Hnil as [Hnil _].
    apply scale_nil_inv in Hnil. done.
  - intros w r Hin. apply elem_of_bind in Hin
      as [(e' & -> & Hin) | (v & a & w' & Hin & Hr & ->)].
    + destruct (Hall w _ Hin) as (a & Heq & _). done.
    + destruct (Hall v _ Hin) as (a' & Heq & Ha). inversion Heq; subst.
      destruct (Hf a' Ha) as [_ Hfall]. eauto.
Qed.
End rand_facts.

Section library_facts.
Context {A : Type}.
Implicit Types (l : list A).

Lemma arrangements_spec k l r :
  r ∈ arrangements k l → length r = k ∧ r ⊆+ l.
Proof.
  revert l r. induction k as [| k IH]; intros l r Hin; simpl in Hin.
  - apply list_elem_of_singleton in Hin as ->. split; [done |].
    apply submseteq_nil_l.
  - apply list_elem_of_In, in_flat_map in Hin as (i & _ & Hin).
    destruct (l !! i) as [x |] eqn:Hi; [| by destruct Hin].
    apply list_elem_of_In, list_elem_of_fmap in Hin as (r' & -> & Hin).
    apply IH in Hin as [Hlen Hsub]. split; [simpl; lia |].
    rewrite (delete_Permutation l i x Hi). by apply submseteq_skip.
Qed.

Lemma arrangements_nonempty k l : k ≤ length l → arrangements k l ≠ [].
Proof.
  revert l. induction k as [| k IH]; intros l Hk; [done |].
  destruct l as [| x l']; simpl in Hk; [lia |].
  assert (Hne : arrangements k l' ≠ []) by (apply IH; lia).
  destruct (arrangements k l') as [| r rs] eqn:Harr; [done |].
  cbn [arrangements length seq flat_map]. cbn [lookup list_lookup].
  change (delete 0 (x :: l')) with l'. rewrite Harr. done.
Qed.

Lemma returns_sample l k (P : list A → Prop) :
  k ≤ length l →
  (∀ r, length r = k → r ⊆+ l → P r) →
  returns (sample l k) P.
Proof.
  intros Hk HP. unfold sample.
  destruct (Nat.ltb_spec (length l) k) as [? | _]; [lia |].
  apply returns_uniform; [by apply arrangements_nonempty |].
  intros r Hr. apply arrangements_spec in Hr as [? ?]. by apply HP.
Qed.

Lemma raises_sample l k : length l < k → raises (sample l k) ValueError.
Proof.
  intros Hk. unfold sample.
  destruct (Nat.ltb_spec (length l) k) as [_ | ?]; [| lia].
  apply raises_raise.
Qed.

Lemma returns_shuffle l : returns (shuffle l) (λ r, l ≡ₚ r).
Proof.
  apply returns_uniform.
  - intros Hnil. pose proof (permutations_refl l) as Hin.
    rewrite Hnil in Hin. by apply not_elem_of_nil in Hin.
  - intros r Hr. by apply permutations_Permutation.
Qed.

Lemma returns_for_each {B} (l : list A) (body : A → Rand B)
    (P : A → B → Prop) :
  (∀ a, a ∈ l → returns (body a) (P a)) →
  returns (for_each l body) (λ r, Forall2 P l r).
Proof.
  induction l as [| a l IH]; intros Hbody; simpl.
  - apply returns_ret. constructor.
  - eapply returns_bind; [apply Hbody; left |].
    intros b Hb. eapply returns_bind.
    + apply IH. intros a' Ha'. apply Hbody. by right.
    + intros bs Hbs. apply returns_ret. by constructor.
Qed.
End library_facts.

Lemma returns_randint (a b : Z) :
  (a ≤ b)%Z → returns (randint a b) (λ r, (a ≤ r ≤ b)%Z).
Proof.
  intros Hab. unfold randint.
  destruct (Z.ltb_spec b a) as [? | _]; [lia |].
  apply returns_uniform.
  - intros Hnil. apply (f_equal length) in Hnil.
    rewrite length_seqZ in Hnil. simpl in Hnil. lia.
  - intros r Hr. apply elem_of_seqZ in Hr. lia.
Qed.


Lemma returns_random_element (imgs : list nat) :
  imgs ≠ [] → returns (random_element imgs) (λ x, x ∈ imgs).
Proof.
  intros Hne. unfold random_element.
  assert (0 < length imgs) by (destruct imgs; [done | simpl; lia]).
  eapply returns_bind; [apply returns_randint; lia |].
  intros r Hr. simpl in Hr.
  destruct (lookup_lt_is_Some_2 imgs (Z.to_nat r)) as [x Hx]; [lia |].
  eapply returns_lift; [done |]. by eapply list_elem_of_lookup_2.
Qed.

(** Inversion of the outcomes of the primitive computations. *)
Section inversion.
Context {A : Type}.

Lemma elem_of_ret (w : Qc) (r : result A) (a : A) :
  (w, r) ∈ ret a → w = 1%Qc ∧ r = Ok a.
Proof. intros Hin. apply list_elem_of_singleton in Hin. by inversion Hin. Qed.

Lemma elem_of_raise (w : Qc) (r : result A) (e : exn) :
  (w, r) ∈ (raise e : Rand A) → w = 1%Qc ∧ r = Raise e.
Proof. intros Hin. apply list_elem_of_singleton in Hin. by inversion Hin. Qed.

Lemma elem_of_lift_ok (w : Qc) (a : A) (e : exn) (o : option A) :
  (w, Ok a) ∈ lift e o → o = Some a.
Proof.
  destruct o as [a' |]; simpl; intros Hin.
  - apply elem_of_ret in Hin as [_ Heq]. by inversion Heq.
  - apply elem_of_raise in Hin as [_ Heq]. done.
Qed.

Lemma elem_of_uniform (w : Qc) (r : result A) (l : list A) :
  (w, r) ∈ uniform l →
  ∃ a, r = Ok a ∧ a ∈ l ∧ w = (1 / Qc_of_nat (length l))%Qc.
Proof.
  unfold uniform. intros Hin.
  apply list_elem_of_fmap in Hin as (a & Heq & Hin).
  inversion Heq; subst. eauto.
Qed.

Lemma elem_of_choice_ok (w : Qc) (a : A) (l : list A) :
  (w, Ok a) ∈ choice l → a ∈ l.
Proof.
  destruct l as [| x l']; simpl; intros Hin.
  - apply elem_of_raise in Hin as [_ Heq]. done.
  - apply (elem_of_uniform _ _ (x :: l')) in Hin as (a' & Heq & Hin & _).
    by inversion Heq; subst.
Qed.
End inversion.

(** Splits a hypothesis [(w, Ok b) ∈ bind m f] into an outcome of [m] and an
    outcome of the continuation. *)
Ltac inv_bind H :=
  let e := fresh "e" in
  let Hraise := fresh "Hraise" in
  apply elem_of_bind in H
    as [(e & Hraise & H) | (? & ? & ? & ? & H & ->)];
  [discriminate Hraise |].

Lemma elem_of_np_where (cond : list bool) (i : nat) :
  i ∈ np_where cond ↔ cond !! i = Some true.
Proof.
  unfold np_where. rewrite list_elem_of_filter, elem_of_seq. split.
  - by intros [? _].
  - intros Hi. split; [done |]. apply lookup_lt_Some in Hi. lia.
Qed.

Lemma elem_of_intersect (a b : list nat) (x : nat) :
  x ∈ intersect a b ↔ x ∈ a ∧ x ∈ b.
Proof.
  unfold intersect.
  rewrite elem_of_elements, elem_of_intersection, !elem_of_list_to_set. done.
Qed.


Lemma elem_of_semi_hard_ids (row : vector) (sim : R) (pool : list nat)
    (N : nat) :
  N ∈ semi_hard_ids row sim pool ↔
    N ∈ pool ∧ ∃ s, row !! N = Some s ∧ (s + 0.25 > sim)%R.
Proof.
  unfold semi_hard_ids.
  rewrite elem_of_intersect, elem_of_np_where, list_lookup_fmap. split.
  - intros [Hpool Hcond]. split; [done |].
    destruct (row !! N) as [s |]; [| done]. simpl in Hcond.
    exists s. split; [done |]. inversion Hcond as [Hdec].
    by apply bool_decide_eq_true in Hdec.
  - intros [Hpool (s & -> & Hs)]. split; [done |]. simpl.
    f_equal. by apply bool_decide_eq_true.
Qed.

Lemma retry_loop_mined (id_to_classid : gmap nat nat) (anchor_class : nat)
    (possible_ids : list nat) (num_retries : nat) (w : Qc) (N : nat) :
  (w, Ok (Some N)) ∈
    retry_loop id_to_classid anchor_class possible_ids num_retries →
  N ∈ possible_ids ∧
  ∃ c, id_to_classid !! N = Some c ∧ c ≠ anchor_class.
Proof.
  revert w. induction num_retries as [| n IH]; intros w Hin; simpl in Hin.
  - apply elem_of_ret in Hin as [_ Heq]. done.
  - case_bool_decide.
    + apply elem_of_ret in Hin as [_ Heq]. done.
    + inv_bind Hin. inv_bind Hin.
      match goal with H : _ ∈ choice _ |- _ => apply elem_of_choice_ok in H end.
      match goal with H : _ ∈ lift _ _ |- _ => apply elem_of_lift_ok in H end.
      case_bool_decide.
      * apply elem_of_ret in Hin as [_ Heq]. inversion Heq; subst. eauto.
      * by apply IH in Hin.
Qed.

(** ** C1: what the mining branch of [build_negatives] selects *)

(** C1.  For every anchor/positive pair [(A, P)], a negative [N] that the
    loop body of [build_negatives] appends through the mining branch (the
    [appended] flag is [true]) is a member of the pool [neg_imgs_idx], has
    [S[A,N] + 0.25 > S[A,P]], and its class [id_to_classid[N]] differs from
    the anchor's class [id_to_classid[A]]. *)
Theorem build_negatives_mined_is_semi_hard
    (id_to_classid : gmap nat nat) (similarities : matrix)
    (neg_imgs_idx : list nat) (num_retries A P : nat) (w : Qc) (N : nat) :
  (w, Ok (N, true)) ∈
    negative_for_pair id_to_classid similarities neg_imgs_idx num_retries A P →
  N ∈ neg_imgs_idx ∧
  (∃ row sAP sAN,
      similarities !! A = Some row ∧ row !! P = Some sAP ∧
      row !! N = Some sAN ∧ (sAN + 0.25 > sAP)%R) ∧
  (∃ cA cN,
      id_to_classid !! A = Some cA ∧ id_to_classid !! N = Some cN ∧
      cN ≠ cA).
Proof.
  unfold negative_for_pair. intros Hin.
  inv_bind Hin. inv_bind Hin. inv_bind Hin. inv_bind Hin.
  repeat match goal with
         | H : _ ∈ lift _ _ |- _ => apply elem_of_lift_ok in H
         end.
  match goal with
  | H : (_, Ok ?mined) ∈ retry_loop _ _ _ _ |- _ =>
      destruct mined as [idx_neg |]
  end.
  - apply elem_of_ret in Hin as [_ Heq]. inversion Heq; subst.
    match goal with
    | H : _ ∈ retry_loop _ _ _ _ |- _ =>
        apply retry_loop_mined in H as [Hposs (c & Hc & Hne)]
    end.
    apply elem_of_semi_hard_ids in Hposs as [Hpool (s & Hs & Hgt)].
    split; [done |]. split; eauto 10.
  - inv_bind Hin. apply elem_of_ret in Hin as [_ Heq]. by inversion Heq.
Qed.

(** Building outcomes: the converse direction, used to exhibit runs. *)
Section outcomes.
Context {A B : Type}.

Lemma bind_outcome (m : Rand A) (f : A → Rand B) v a w r :
  (v, Ok a) ∈ m → (w, r) ∈ f a → ((v * w)%Qc, r) ∈ bind m f.
Proof. intros Hm Hf. apply elem_of_bind. right. by exists v, a, w. Qed.

Lemma ret_outcome (a : A) : (1%Qc, Ok a) ∈ ret a.
Proof. by apply list_elem_of_singleton. Qed.

Lemma lift_outcome (e : exn) (o : option A) (a : A) :
  o = Some a → (1%Qc, Ok a) ∈ lift e o.
Proof. intros ->. apply ret_outcome. Qed.

Lemma uniform_outcome (l : list A) (a : A) :
  a ∈ l → ((1 / Qc_of_nat (length l))%Qc, Ok a) ∈ uniform l.
Proof.
  intros Hin. unfold uniform. apply list_elem_of_fmap. by exists a.
Qed.

Lemma choice_outcome (l : list A) (a : A) :
  a ∈ l → ((1 / Qc_of_nat (length l))%Qc, Ok a) ∈ choice l.
Proof.
  intros Hin. destruct l as [| x l']; [by apply not_elem_of_nil in Hin |].
  by apply (uniform_outcome (x :: l')).
Qed.
End outcomes.

(** The mining branch is reachable: a semi-hard candidate of another class
    can be drawn at the first try. *)
Lemma negative_for_pair_can_mine (id_to_classid : gmap nat nat)
    (similarities : matrix) (neg_imgs_idx : list nat) (n A P N : nat)
    (row : vector) (sAP : R) (cA cN : nat) :
  id_to_classid !! A = Some cA →
  similarities !! A = Some row →
  row !! P = Some sAP →
  N ∈ semi_hard_ids row sAP neg_imgs_idx →
  id_to_classid !! N = Some cN →
  cN ≠ cA →
  ∃ w, (w, Ok (N, true)) ∈
         negative_for_pair id_to_classid similarities neg_imgs_idx (S n) A P.
Proof.
  intros HcA Hrow HsAP HN HcN Hne. unfold negative_for_pair.
  eexists.
  eapply bind_outcome; [by apply lift_outcome |].
  eapply bind_outcome; [by apply lift_outcome |].
  eapply bind_outcome; [by apply lift_outcome |].
  eapply (bind_outcome _ _ _ (Some N)); [| apply ret_outcome].
  simpl. rewrite bool_decide_eq_false_2.
  2: { intros Hlen. apply nil_length_inv in Hlen. rewrite Hlen in HN.
       by apply not_elem_of_nil in HN. }
  eapply bind_outcome; [by apply choice_outcome |].
  eapply bind_outcome; [by apply lift_outcome |].
  rewrite bool_decide_eq_true_2 by done. apply ret_outcome.
Qed.

(** Every negative of an outcome of [build_negatives] is the negative of an
    outcome of the loop body on the pair at the same position. *)
Lemma build_negatives_pairwise (id_to_classid : gmap nat nat)
    (anc_idxs pos_idxs : list nat) (similarities : matrix)
    (neg_imgs_idx : list nat) (num_retries : nat) (w : Qc) (negs : list nat) :
  (w, Ok negs) ∈ build_negatives id_to_classid anc_idxs pos_idxs
                   (Some similarities) neg_imgs_idx num_retries →
  Forall2 (λ ap N, ∃ v appended,
             (v, Ok (N, appended)) ∈
               negative_for_pair id_to_classid similarities neg_imgs_idx
                 num_retries ap.1 ap.2)
          (zip anc_idxs pos_idxs) negs.
Proof.
  unfold build_negatives. generalize (zip anc_idxs pos_idxs) as pairs.
  intros pairs. revert w negs.
  induction pairs as [| ap pairs IH]; intros w negs Hin; simpl in Hin.
  - apply elem_of_ret in Hin as [_ Heq]. inversion Heq. constructor.
  - inv_bind Hin. inv_bind Hin.
    apply elem_of_ret in Hin as [_ Heq]. inversion Heq; subst.
    match goal with
    | H : _ ∈ bind (negative_for_pair _ _ _ _ _ _) _ |- _ =>
        inv_bind H; apply elem_of_ret in H as [_ Heq']; inversion Heq'; subst
    end.
    constructor; [| by eapply IH].
    match goal with
    | H : (_, Ok ?r) ∈ negative_for_pair _ _ _ _ _ _ |- _ => destruct r
    end.
    simpl. eauto.
Qed.

Lemma build_negatives_mined_is_semi_hard_witness :
  ∃ w,
    (w, Ok (2, true)) ∈
      negative_for_pair example_classes example_sims [0; 1; 2] 20 0 1 ∧
    2 ∈ [0; 1; 2] ∧
    (∃ row sAP sAN,
        example_sims !! 0 = Some row ∧ row !! 1 = Some sAP ∧
        row !! 2 = Some sAN ∧ (sAN + 0.25 > sAP)%R) ∧
    (∃ cA cN,
        example_classes !! 0 = Some cA ∧ example_classes !! 2 = Some cN ∧
        cN ≠ cA).
Proof.
  destruct (negative_for_pair_can_mine example_classes example_sims
              [0; 1; 2] 19 0 1 2 [1; 0.9; 0.8]%R 0.9%R 0 1)
    as [w Hw]; try done.
  - apply elem_of_semi_hard_ids. split; [set_solver |].
    exists 0.8%R. split; [done | lra].
  - exists w. split; [exact Hw |].
    exact (build_negatives_mined_is_semi_hard example_classes example_sims
             [0; 1; 2] 20 0 1 w 2 Hw).
Defined.

(* ================================================================= *)
(** * Probabilities *)

Section prob_facts.
Context {A : Type}.
Implicit Types (m : Rand A) (P : result A → bool).

Lemma prob_app P m1 m2 : prob P (m1 ++ m2) = (prob P m1 + prob P m2)%Qc.
Proof.
  induction m1 as [| wr m1 IH]; simpl; [ring |].
  destruct (P wr.2); rewrite IH; ring.
Qed.

Lemma prob_scale P (v : Qc) m : prob P (scale v m) = (v * prob P m)%Qc.
Proof.
  induction m as [| wr m IH]; simpl; [ring |].
  destruct (P wr.2); rewrite IH; ring.
Qed.

Lemma prob_ret P (a : A) : prob P (ret a) = indicator (P (Ok a)).
Proof. simpl. destruct (P (Ok a)); simpl; ring. Qed.

Lemma prob_raise P (e : exn) : prob P (raise e) = indicator (P (Raise e)).
Proof. simpl. destruct (P (Raise e)); simpl; ring. Qed.

Lemma expect_ext (g h : result A → Qc) m :
  (∀ w r, (w, r) ∈ m → g r = h r) → expect g m = expect h m.
Proof.
  induction m as [| [w r] m IH]; intros Hext; [done |].
  simpl. rewrite (Hext w r) by left. rewrite IH; [done |].
  intros w' r' Hin. apply (Hext w'). by right.
Qed.




Lemma expect_weighted (g : result A → Qc) (c : Qc) (l : list A) :
  expect g (map (λ x, (c, Ok x)) l) = (c * Qc_sum (λ a, g (Ok a)) l)%Qc.
Proof. induction l as [| x l IH]; simpl; [ring | rewrite IH; ring]. Qed.

Lemma expect_uniform (g : result A → Qc) (l : list A) :
  expect g (uniform l) =
    (1 / Qc_of_nat (length l) * Qc_sum (λ a, g (Ok a)) l)%Qc.
Proof. apply expect_weighted. Qed.

End prob_facts.

Section prob_bind_facts.
Context {A B : Type}.
Implicit Types (m : Rand A) (f : A → Rand B).

Lemma prob_bind (Q : result B → bool) m f :
  prob Q (bind m f) = expect (cont_prob Q f) m.
Proof.
  induction m as [| [w r] m IH]; [done |].
  unfold bind in *. cbn [flat_map expect foldr fst snd].
  rewrite prob_app, IH. f_equal.
  destruct r as [a | e]; cbn [cont_prob].
  - apply prob_scale.
  - simpl. destruct (Q (Raise e)); simpl; ring.
Qed.

End prob_bind_facts.



Lemma Qc_sum_plus {A} (g h : A → Qc) (l : list A) :
  Qc_sum (λ a, (g a + h a)%Qc) l = (Qc_sum g l + Qc_sum h l)%Qc.
Proof. induction l as [| x l IH]; simpl; [ring | rewrite IH; ring]. Qed.

Lemma Qc_of_nat_S (n : nat) : Qc_of_nat (S n) = (1 + Qc_of_nat n)%Qc.
Proof.
  unfold Qc_of_nat. apply Qc_is_canon. simpl.
  rewrite !Qred_correct. rewrite Nat2Z.inj_succ.
  unfold Z.succ. rewrite inject_Z_plus. simpl. ring.
Qed.

Lemma Qc_of_nat_pos (n : nat) : 0 < n → (0 < Qc_of_nat n)%Qc.
Proof.
  intros Hn. unfold Qc_of_nat, Qclt. simpl. rewrite !Qred_correct.
  change 0%Q with (inject_Z 0). rewrite <- Zlt_Qlt. lia.
Qed.

Lemma Qc_sum_indicator {A} (p : A → bool) (l : list A) :
  Qc_sum (λ a, indicator (p a)) l =
    Qc_of_nat (length (filter (λ a, p a = true) l)).
Proof.
  induction l as [| x l IH]; [by apply Qc_is_canon |].
  cbn [Qc_sum foldr]. fold (Qc_sum (λ a, indicator (p a)) l).
  rewrite IH, filter_cons.
  destruct (decide (p x = true)) as [Hp | Hp].
  - rewrite Hp. cbn [length indicator]. by rewrite Qc_of_nat_S.
  - apply not_true_is_false in Hp. rewrite Hp. cbn [indicator]. ring.
Qed.

(* ================================================================= *)
(** * The retry loop of [build_negatives] as a distribution *)

Section retry_loop_facts.
Context (id_to_classid : gmap nat nat) (anchor_class : nat).
Context (possible_ids : list nat).












End retry_loop_facts.

Lemma expect_prob {A} (P : result A → bool) (m : Rand A) :
  expect (λ r, indicator (P r)) m = prob P m.
Proof.
  induction m as [| [w r] m IH]; [done |].
  simpl. rewrite IH. destruct (P r); simpl; ring.
Qed.





Section negative_for_pair_facts.
Context (id_to_classid : gmap nat nat) (similarities : matrix).
Context (neg_imgs_idx : list nat) (num_retries A P : nat).
Context (row : vector) (sAP : R) (cA : nat).
Hypothesis anchor_has_class : id_to_classid !! A = Some cA.
Hypothesis anchor_has_row : similarities !! A = Some row.
Hypothesis positive_in_row : row !! P = Some sAP.


End negative_for_pair_facts.


Lemma Qc_of_nat_nonzero (n : nat) : 0 < n → Qc_of_nat n ≠ 0%Qc.
Proof.
  intros Hn Hz. apply Qc_of_nat_pos in Hn. rewrite Hz in Hn.
  by apply Qclt_not_eq in Hn.
Qed.

(** ** The weights of a computation add up to one *)

Lemma mass_ret {A} (a : A) : mass (ret a) = 1%Qc.
Proof. unfold mass. by rewrite prob_ret. Qed.

Lemma mass_raise {A} (e : exn) : mass (raise e : Rand A) = 1%Qc.
Proof. unfold mass. by rewrite prob_raise. Qed.

Lemma mass_lift {A} (e : exn) (o : option A) : mass (lift e o) = 1%Qc.
Proof. destruct o; [apply mass_ret | apply mass_raise]. Qed.

Lemma Qc_sum_const {A} (c : Qc) (l : list A) :
  Qc_sum (λ _, c) l = (Qc_of_nat (length l) * c)%Qc.
Proof.
  induction l as [| x l IH]; simpl.
  - replace (Qc_of_nat 0) with 0%Qc by by apply Qc_is_canon. ring.
  - rewrite IH, Qc_of_nat_S. ring.
Qed.

Lemma mass_uniform {A} (l : list A) : l ≠ [] → mass (uniform l) = 1%Qc.
Proof.
  intros Hne. unfold mass. rewrite <- expect_prob, expect_uniform.
  cbn [indicator]. rewrite Qc_sum_const.
  assert (0 < length l) by (destruct l; [done | simpl; lia]).
  field. by apply Qc_of_nat_nonzero.
Qed.

Lemma mass_choice {A} (l : list A) : mass (choice l) = 1%Qc.
Proof.
  destruct l as [| x l']; [apply mass_raise |].
  by apply (mass_uniform (x :: l')).
Qed.

Lemma mass_bind {A B} (m : Rand A) (f : A → Rand B) :
  (∀ a, mass (f a) = 1%Qc) → mass (bind m f) = mass m.
Proof.
  intros Hf. unfold mass. rewrite prob_bind, <- expect_prob.
  apply expect_ext. intros w [a | e] _; cbn [cont_prob indicator]; [| done].
  apply Hf.
Qed.

Lemma mass_retry_loop (id_to_classid : gmap nat nat) (anchor_class : nat)
    (possible_ids : list nat) (num_retries : nat) :
  mass (retry_loop id_to_classid anchor_class possible_ids num_retries)
    = 1%Qc.
Proof.
  induction num_retries as [| n IH]; cbn [retry_loop]; [apply mass_ret |].
  case_bool_decide; [apply mass_ret |].
  rewrite mass_bind; [apply mass_choice |]. intros idx_neg.
  rewrite mass_bind; [apply mass_lift |]. intros c.
  case_bool_decide; [apply mass_ret | apply IH].
Qed.

(** The outcomes of the loop body of [build_negatives] form a probability
    distribution. *)
Lemma mass_negative_for_pair (id_to_classid : gmap nat nat)
    (similarities : matrix) (neg_imgs_idx : list nat)
    (num_retries A P : nat) :
  mass (negative_for_pair id_to_classid similarities neg_imgs_idx
          num_retries A P) = 1%Qc.
Proof.
  unfold negative_for_pair.
  rewrite mass_bind; [apply mass_lift |]. intros cA.
  rewrite mass_bind; [apply mass_lift |]. intros row.
  rewrite mass_bind; [apply mass_lift |]. intros sAP.
  rewrite mass_bind; [apply mass_retry_loop |]. intros [idx_neg |].
  - apply mass_ret.
  - rewrite mass_bind; [apply mass_choice |]. intros idx. apply mass_ret.
Qed.

(** ** C2: how [build_negatives] picks the negative of one pair *)





(* ================================================================= *)
(** * [build_negatives] returns one negative per pair *)

Lemma retry_loop_returns (id_to_classid : gmap nat nat) (anchor_class : nat)
    (possible_ids : list nat) (num_retries : nat) :
  (∀ x, x ∈ possible_ids → is_Some (id_to_classid !! x)) →
  returns (retry_loop id_to_classid anchor_class possible_ids num_retries)
          (λ mined, ∀ N, mined = Some N → N ∈ possible_ids).
Proof.
  intros Hcls. induction num_retries as [| n IH]; cbn [retry_loop].
  - by apply returns_ret.
  - case_bool_decide as Hlen; [by apply returns_ret |].
    eapply returns_bind.
    { apply (returns_choice possible_ids (λ x, x ∈ possible_ids)); [| done].
      intros Hnil. by rewrite Hnil in Hlen. }
    intros idx_neg Hin. destruct (Hcls idx_neg Hin) as [c Hc].
    eapply returns_bind; [by eapply (returns_lift _ _ c (λ c', c' = c)) |].
    intros c' ->. case_bool_decide; [| done].
    apply returns_ret. by intros N [= <-].
Qed.

Lemma negative_for_pair_returns (id_to_classid : gmap nat nat)
    (similarities : matrix) (neg_imgs_idx : list nat)
    (num_retries A P : nat) :
  is_Some (id_to_classid !! A) →
  (∃ row, similarities !! A = Some row ∧ is_Some (row !! P)) →
  Forall (λ x, is_Some (id_to_classid !! x)) neg_imgs_idx →
  neg_imgs_idx ≠ [] →
  returns (negative_for_pair id_to_classid similarities neg_imgs_idx
             num_retries A P)
          (λ r, r.1 ∈ neg_imgs_idx).
Proof.
  intros [cA HcA] (row & Hrow & [sAP HsAP]) Hpool Hne.
  unfold negative_for_pair.
  eapply returns_bind; [by eapply (returns_lift _ _ cA (λ c, c = cA)) |].
  intros ? ->.
  eapply returns_bind; [by eapply (returns_lift _ _ row (λ r, r = row)) |].
  intros ? ->.
  eapply returns_bind; [by eapply (returns_lift _ _ sAP (λ s, s = sAP)) |].
  intros ? ->.
  eapply returns_bind.
  { apply retry_loop_returns. intros x Hx.
    apply elem_of_semi_hard_ids in Hx as [Hx _].
    by apply (proj1 (Forall_forall _ _) Hpool). }
  intros [idx_neg |] Hmined.
  - apply returns_ret. simpl.
    specialize (Hmined idx_neg eq_refl).
    by apply elem_of_semi_hard_ids in Hmined as [? _].
  - eapply returns_bind.
    { by apply (returns_choice neg_imgs_idx (λ x, x ∈ neg_imgs_idx)). }
    intros idx Hidx. by apply returns_ret.
Qed.

(** C8.  With one positive per anchor and a pool at least as large as the
    list of anchors, [build_negatives] returns a list of exactly
    [len(anc_idxs)] negatives, all of them pool members: when
    [similarities] is [None] (a sample of the pool), and when it is a matrix,
    whichever of the mining branch and the fallback each pair takes (the loop
    body returns exactly one negative in both cases). *)
Theorem build_negatives_length
    (id_to_classid : gmap nat nat) (anc_idxs pos_idxs : list nat)
    (similarities : option matrix) (neg_imgs_idx : list nat)
    (num_retries : nat) :
  length pos_idxs = length anc_idxs →
  length anc_idxs ≤ length neg_imgs_idx →
  (∀ sims, similarities = Some sims →
           mining_inputs_ok id_to_classid sims anc_idxs pos_idxs neg_imgs_idx) →
  returns (build_negatives id_to_classid anc_idxs pos_idxs similarities
             neg_imgs_idx num_retries)
          (λ final_neg, length final_neg = length anc_idxs ∧
                        ∀ N, N ∈ final_neg → N ∈ neg_imgs_idx).
Proof.
  intros Hlen Hpool Hok.
  destruct similarities as [sims |]; cbn [build_negatives].
  - destruct (Hok sims eq_refl) as [Hpairs Hcls].
    eapply returns_weaken.
    + apply (returns_for_each _ _ (λ _ N, N ∈ neg_imgs_idx)).
      intros [a p] Hap. cbn [fst snd].
      assert (Hne : neg_imgs_idx ≠ []).
      { intros ->. destruct anc_idxs; [| simpl in Hpool; lia].
        by apply not_elem_of_nil in Hap. }
      apply list_elem_of_lookup in Hap as [i Hi].
      apply lookup_zip_with_Some in Hi as (a' & p' & [= <- <-] & Ha & Hp).
      destruct (Forall2_lookup_lr _ _ _ _ _ _ Hpairs Ha Hp) as [HcA Hrow].
      eapply returns_bind; [by apply negative_for_pair_returns |].
      intros r Hr. by apply returns_ret.
    + intros final_neg Hall. split.
      * apply Forall2_length in Hall. rewrite <- Hall, length_zip. lia.
      * intros N HN. apply list_elem_of_lookup in HN as [i Hi].
        destruct (Forall2_lookup_r _ _ _ _ _ Hall Hi) as (ap & _ & HN). done.
  - apply returns_sample; [done |].
    intros r Hr Hsub. split; [done |].
    intros N HN. by eapply elem_of_submseteq.
Qed.

Lemma build_negatives_length_witness :
  returns (build_negatives example_classes [0] [1] (Some example_sims)
             example_pool 20)
          (λ final_neg, length final_neg = 1 ∧
                        ∀ N, N ∈ final_neg → N ∈ example_pool) ∧
  returns (build_negatives example_classes [0; 1] [1; 0] None example_pool 20)
          (λ final_neg, length final_neg = 2 ∧
                        ∀ N, N ∈ final_neg → N ∈ example_pool).
Proof.
  split.
  - apply (build_negatives_length example_classes [0] [1] (Some example_sims)
             example_pool 20); [reflexivity | simpl; lia |].
    intros sims [= <-]. split.
    + repeat constructor; [by eexists | eexists; split; [done | by eexists]].
    + repeat constructor; by eexists.
  - apply (build_negatives_length example_classes [0; 1] [1; 0] None
             example_pool 20); [reflexivity | simpl; lia |].
    intros sims [=].
Defined.

(* ================================================================= *)
(** * Positive and negative pairs *)

Lemma elem_of_combinations2 {A} (l : list A) (a b : A) :
  (a, b) ∈ combinations2 l → a ∈ l ∧ b ∈ l ∧ (NoDup l → a ≠ b).
Proof.
  induction l as [| x l IH]; simpl; intros Hin.
  - by apply not_elem_of_nil in Hin.
  - apply elem_of_app in Hin as [Hin | Hin].
    + apply list_elem_of_fmap in Hin as (y & [= -> ->] & Hy).
      split; [left |]. split; [by right |].
      intros Hnd. apply NoDup_cons in Hnd as [Hx _]. by intros ->.
    + apply IH in Hin as (Ha & Hb & Hne).
      split; [by right |]. split; [by right |].
      intros Hnd. apply NoDup_cons in Hnd as [_ Hnd]. by apply Hne.
Qed.

(** [itertools.combinations(l, 2)] holds exactly the pairs made of an
    element and a later element of [l]. *)
Lemma elem_of_combinations2_iff {A} (l : list A) (a b : A) :
  (a, b) ∈ combinations2 l ↔
  ∃ i j, i < j ∧ l !! i = Some a ∧ l !! j = Some b.
Proof.
  induction l as [| x l IH]; simpl.
  - split; [intros Hin; by apply not_elem_of_nil in Hin |].
    intros (i & j & _ & Hi & _). done.
  - rewrite elem_of_app, list_elem_of_fmap, IH. split.
    + intros [(y & [= -> ->] & Hy) | (i & j & Hij & Hi & Hj)].
      * apply list_elem_of_lookup in Hy as [j Hj].
        exists 0, (S j). split; [lia | done].
      * exists (S i), (S j). split; [lia | done].
    + intros (i & j & Hij & Hi & Hj).
      destruct j as [| j]; [lia |]. destruct i as [| i]; simpl in Hi, Hj.
      * injection Hi as ->. left. exists b. split; [done |].
        by eapply list_elem_of_lookup_2.
      * right. exists i, j. split; [lia | done].
Qed.

(** Each pair occurs once when the elements are pairwise distinct. *)
Lemma NoDup_combinations2 {A} (l : list A) :
  NoDup l → NoDup (combinations2 l).
Proof.
  induction l as [| x l IH]; simpl; intros Hnd; [constructor |].
  apply NoDup_cons in Hnd as [Hx Hnd]. apply NoDup_app. split; [| split].
  - apply NoDup_fmap_2; [| done]. by intros y z [= ->].
  - intros [a b] Hin Hin'.
    apply list_elem_of_fmap in Hin as (y & [= -> ->] & _).
    apply elem_of_combinations2 in Hin' as (Hin' & _). done.
  - by apply IH.
Qed.

Lemma double_length_combinations2 {A} (l : list A) :
  2 * length (combinations2 l) = length l * (length l - 1).
Proof.
  induction l as [| x l IH]; [done |].
  cbn [combinations2 length]. rewrite length_app, length_map.
  destruct l as [| y l']; [done |]. cbn [length] in *. nia.
Qed.

(** A list of [n] elements has [n * (n - 1) / 2] combinations. *)
Lemma length_combinations2 {A} (l : list A) :
  length (combinations2 l) = length l * (length l - 1) / 2.
Proof.
  rewrite <- double_length_combinations2.
  rewrite Nat.mul_comm, Nat.div_mul; [done | lia].
Qed.

(** The orderings of [combinations2 imgs] are the lists that hold every
    pair of an earlier and a later image exactly once. *)
Lemma combinations2_all_pairs (imgs : list nat) (order : list (nat * nat)) :
  NoDup imgs →
  combinations2 imgs ≡ₚ order ↔ lists_all_pairs imgs order.
Proof.
  intros Hnd. split.
  - intros Hperm. split.
    + rewrite <- Hperm. by apply NoDup_combinations2.
    + intros a b. rewrite <- Hperm. apply elem_of_combinations2_iff.
  - intros [Hnd' Hall]. apply NoDup_Permutation.
    + by apply NoDup_combinations2.
    + done.
    + intros [a b]. rewrite Hall. apply elem_of_combinations2_iff.
Qed.

(** ** C6: [build_pos_pairs_for_id] *)

(** C6.  For a class whose images are pairwise distinct ids,
    [build_pos_pairs_for_id] returns the empty list when the class has
    exactly one image; otherwise it returns [min(max_num, n * (n - 1) / 2)]
    pairs ([n] images in the class), hence at most [max_num]; the pairs are
    pairwise different, and each is made of two distinct image ids of the
    class, an image and a later image of the class's list.  The result is a
    random subsample of all 2-combinations: it is the first [max_num]
    entries of a list that holds every pair of an image and a later image
    exactly once, and every such list gives a possible outcome. *)
Theorem build_pos_pairs_for_id_spec
    (classid_to_ids : gmap nat (list nat)) (classid max_num : nat)
    (imgs : list nat) :
  classid_to_ids !! classid = Some imgs →
  NoDup imgs →
  (length imgs = 1 →
   returns (build_pos_pairs_for_id classid_to_ids classid max_num)
           (λ pos_pairs, pos_pairs = [])) ∧
  (length imgs ≠ 1 →
   returns (build_pos_pairs_for_id classid_to_ids classid max_num)
     (λ pos_pairs,
        length pos_pairs ≤ max_num ∧
        length pos_pairs =
          max_num `min` (length imgs * (length imgs - 1) / 2) ∧
        NoDup pos_pairs ∧
        (∀ a b, (a, b) ∈ pos_pairs →
           a ≠ b ∧ a ∈ imgs ∧ b ∈ imgs ∧
           ∃ i j, i < j ∧ imgs !! i = Some a ∧ imgs !! j = Some b) ∧
        ∃ order, lists_all_pairs imgs order ∧
                 pos_pairs = take max_num order) ∧
   ∀ order, lists_all_pairs imgs order →
            ∃ w, (w, Ok (take max_num order)) ∈
                   build_pos_pairs_for_id classid_to_ids classid max_num).
Proof.
  intros Himgs Hnd. unfold build_pos_pairs_for_id. rewrite Himgs. split.
  - intros Hone.
    eapply (returns_bind _ _ (λ l, l = imgs)); [by apply returns_ret |].
    intros ? ->.
    rewrite bool_decide_eq_true_2 by done. by apply returns_ret.
  - intros Hmany. split.
    + eapply (returns_bind _ _ (λ l, l = imgs)); [by apply returns_ret |].
      intros ? ->.
      rewrite bool_decide_eq_false_2 by done.
      eapply returns_bind; [apply returns_shuffle |].
      intros order Hperm. cbv beta in Hperm.
      pose proof (proj1 (combinations2_all_pairs imgs order Hnd) Hperm)
        as Hall.
      apply returns_ret. split; [| split; [| split; [| split]]].
      * rewrite length_take. lia.
      * by rewrite length_take, <- Hperm, length_combinations2.
      * destruct Hall as [Hnd' _].
        eapply sublist_NoDup; [done | apply sublist_take].
      * intros a b Hab.
        assert (Hin : (a, b) ∈ order).
        { apply elem_of_take in Hab as (i & Hi & _).
          by eapply list_elem_of_lookup_2. }
        destruct Hall as [_ Hall]. apply Hall in Hin as (i & j & Hij & Hi & Hj).
        split; [| split; [by eapply list_elem_of_lookup_2 |
                          split; [by eapply list_elem_of_lookup_2 | eauto]]].
        intros ->. pose proof (NoDup_lookup _ _ _ _ Hnd Hi Hj). lia.
      * by exists order.
    + intros order Hall.
      apply (combinations2_all_pairs imgs order Hnd) in Hall as Hperm.
      eexists.
      eapply bind_outcome; [apply ret_outcome |].
      rewrite bool_decide_eq_false_2 by done.
      eapply bind_outcome; [| apply ret_outcome].
      apply uniform_outcome. by apply permutations_Permutation.
Qed.

Lemma build_pos_pairs_for_id_spec_witness :
  let classid_to_ids : gmap nat (list nat) := <[5 := [10; 11; 12]]> ∅ in
  classid_to_ids !! 5 = Some [10; 11; 12] ∧ NoDup [10; 11; 12] ∧
  returns (build_pos_pairs_for_id classid_to_ids 5 2)
    (λ pos_pairs,
       length pos_pairs ≤ 2 ∧
       length pos_pairs = 2 ∧
       NoDup pos_pairs ∧
       (∀ a b, (a, b) ∈ pos_pairs →
          a ≠ b ∧ a ∈ [10; 11; 12] ∧ b ∈ [10; 11; 12] ∧
          ∃ i j, i < j ∧ [10; 11; 12] !! i = Some a ∧
                 [10; 11; 12] !! j = Some b) ∧
       ∃ order, lists_all_pairs [10; 11; 12] order ∧
                pos_pairs = take 2 order).
Proof.
  intros classid_to_ids.
  assert (Hnd : NoDup [10; 11; 12]).
  { apply NoDup_ListNoDup. repeat constructor; simpl; lia. }
  split; [done |]. split; [done |].
  apply (build_pos_pairs_for_id_spec classid_to_ids 5 2 [10; 11; 12]
           eq_refl Hnd).
  simpl. lia.
Defined.

Lemma NoDup_of_submseteq {A} (l k : list A) : l ⊆+ k → NoDup k → NoDup l.
Proof.
  intros Hsub Hnd. apply submseteq_Permutation in Hsub as [k' Hk].
  rewrite Hk in Hnd. by apply NoDup_app in Hnd as [? _].
Qed.

Lemma elem_of_remove_first (x c : nat) (l : list nat) :
  c ∈ remove_first x l → c ∈ l ∧ (NoDup l → c ≠ x).
Proof.
  induction l as [| y l IH]; simpl; intros Hin.
  - by apply not_elem_of_nil in Hin.
  - case_bool_decide as Hy.
    + subst y. split; [by right |].
      intros Hnd. apply NoDup_cons in Hnd as [Hx _]. by intros ->.
    + apply elem_of_cons in Hin as [-> | Hin].
      * split; [left | done].
      * apply IH in Hin as [Hc Hne]. split; [by right |].
        intros Hnd. apply NoDup_cons in Hnd as [_ Hnd]. by apply Hne.
Qed.

Lemma length_remove_first (x : nat) (l : list nat) :
  x ∈ l → S (length (remove_first x l)) = length l.
Proof.
  induction l as [| y l IH]; simpl; intros Hin.
  - by apply not_elem_of_nil in Hin.
  - case_bool_decide as Hy; [done |].
    apply elem_of_cons in Hin as [-> | Hin]; [done |].
    simpl. by rewrite IH.
Qed.

(** ** C7: [build_neg_pairs_for_id] *)

(** C7.  For every class id and every pool of pairwise distinct classes that
    contains at least [max_num + 1] classes, each class having at least one
    image, [build_neg_pairs_for_id] returns exactly [max_num] pairs; in each
    pair the first image belongs to the given class and the second image
    belongs to a class of the pool different from the given class. *)
Theorem build_neg_pairs_for_id_spec
    (classid_to_ids : gmap nat (list nat)) (classid : nat)
    (classes : list nat) (max_num : nat) (imgs : list nat) :
  classid_to_ids !! classid = Some imgs →
  imgs ≠ [] →
  NoDup classes →
  max_num + 1 ≤ length classes →
  (∀ c, c ∈ classes →
        ∃ imgs2, classid_to_ids !! c = Some imgs2 ∧ imgs2 ≠ []) →
  returns (build_neg_pairs_for_id classid_to_ids classid classes max_num)
    (λ neg_pairs,
       length neg_pairs = max_num ∧
       ∀ img1 img2, (img1, img2) ∈ neg_pairs →
         img1 ∈ imgs ∧
         ∃ class2 imgs2,
           class2 ∈ classes ∧ class2 ≠ classid ∧
           classid_to_ids !! class2 = Some imgs2 ∧ img2 ∈ imgs2).
Proof.
  intros Himgs Hne Hnd Hlen Hclasses. unfold build_neg_pairs_for_id.
  eapply returns_bind; [by eapply (returns_lift _ _ imgs (λ l, l = imgs)) |].
  intros ? ->.
  eapply (returns_bind _ _ (λ r, length r = max_num + 1 ∧ r ⊆+ classes)).
  { apply returns_sample; [done | by intros]. }
  intros drawn [Hdrawn Hsub]. cbv beta.
  set (neg_classes_ids :=
         if bool_decide (classid ∈ drawn) then remove_first classid drawn
         else drawn).
  assert (Hnd' : NoDup drawn) by by eapply NoDup_of_submseteq.
  assert (Hneg : ∀ c, c ∈ neg_classes_ids → c ∈ classes ∧ c ≠ classid).
  { intros c Hc. unfold neg_classes_ids in Hc. case_bool_decide.
    - apply elem_of_remove_first in Hc as [Hc Hcne].
      split; [by eapply elem_of_submseteq | by apply Hcne].
    - split; [by eapply elem_of_submseteq | by intros ->]. }
  assert (Hnlen : max_num ≤ length neg_classes_ids).
  { unfold neg_classes_ids. case_bool_decide as Hin.
    - apply length_remove_first in Hin. lia.
    - lia. }
  eapply returns_weaken.
  - apply (returns_for_each _ _
             (λ _ pair, pair.1 ∈ imgs ∧
                ∃ class2 imgs2,
                  class2 ∈ classes ∧ class2 ≠ classid ∧
                  classid_to_ids !! class2 = Some imgs2 ∧ pair.2 ∈ imgs2)).
    intros id2 Hid2. apply elem_of_seq in Hid2.
    eapply returns_bind; [by apply returns_random_element |].
    intros img1 Himg1.
    destruct (lookup_lt_is_Some_2 neg_classes_ids id2) as [class2 Hclass2];
      [lia |].
    eapply returns_bind;
      [by eapply (returns_lift _ _ class2 (λ c, c = class2)) |].
    intros ? ->.
    destruct (Hneg class2) as [Hin2 Hne2];
      [by eapply list_elem_of_lookup_2 |].
    destruct (Hclasses class2 Hin2) as (imgs2 & Himgs2 & Hne2').
    eapply returns_bind;
      [by eapply (returns_lift _ _ imgs2 (λ l, l = imgs2)) |].
    intros ? ->.
    eapply returns_bind; [by apply returns_random_element |].
    intros img2 Himg2. apply returns_ret. simpl. eauto 10.
  - intros neg_pairs Hall. split.
    + apply Forall2_length in Hall. by rewrite length_seq in Hall.
    + intros img1 img2 Hin. apply list_elem_of_lookup in Hin as [i Hi].
      destruct (Forall2_lookup_r _ _ _ _ _ Hall Hi) as (id2 & _ & Hpair).
      done.
Qed.

Lemma build_neg_pairs_for_id_spec_witness :
  returns (build_neg_pairs_for_id example_classid_to_ids 1 [0; 1; 2] 2)
    (λ neg_pairs,
       length neg_pairs = 2 ∧
       ∀ img1 img2, (img1, img2) ∈ neg_pairs →
         img1 ∈ [2] ∧
         ∃ class2 imgs2,
           class2 ∈ [0; 1; 2] ∧ class2 ≠ 1 ∧
           example_classid_to_ids !! class2 = Some imgs2 ∧ img2 ∈ imgs2).
Proof.
  apply (build_neg_pairs_for_id_spec example_classid_to_ids 1 [0; 1; 2] 2 [2]).
  - reflexivity.
  - discriminate.
  - apply NoDup_ListNoDup; repeat constructor; simpl; lia.
  - simpl. lia.
  - intros c Hc.
    repeat (apply elem_of_cons in Hc as [-> | Hc]; [eexists; by split |]).
    by apply not_elem_of_nil in Hc.
Defined.

(* ================================================================= *)
(** * TripletGenerator *)

Lemma take_plus {A} (l : list A) (n m : nat) :
  take (n + m) l = take n l ++ take m (drop n l).
Proof.
  revert l. induction n as [| n IH]; intros l; [done |].
  destruct l as [| x l]; simpl; [by rewrite take_nil |].
  by rewrite IH.
Qed.

Lemma length_slice {A} (l : list A) (low high : nat) :
  low ≤ high → high ≤ length l → length (slice l low high) = high - low.
Proof.
  intros Hlow Hhigh. unfold slice. rewrite length_take, length_drop. lia.
Qed.

(** The batches laid end to end are a prefix of the pairs. *)
Lemma concat_slices {A} (l : list A) (b k : nat) :
  concat (map (λ i, slice l (i * b) ((i + 1) * b)) (seq 0 k)) = take (k * b) l.
Proof.
  induction k as [| k IH]; [done |].
  rewrite seq_S, map_app, concat_app, IH. simpl.
  rewrite app_nil_r. unfold slice.
  replace ((k + 1) * b - k * b) with b by lia.
  replace (b + k * b) with (k * b + b) by lia.
  by rewrite take_plus.
Qed.

(** ** C9: the batches of [TripletGenerator] *)

(** C9 (amended).  For every [TripletGenerator] built from [num_samples]
    anchor/positive pairs, a batch size [b] with [0 < b <= num_samples] and
    a negative pool of at least [b] images, the generator has exactly
    [num_samples // b] batches; every batch holds exactly [b] anchors, [b]
    positives and [b] negatives (the anchors and positives of positions
    [i*b .. (i+1)*b - 1], the negatives drawn from the pool); and the batches
    together are the first [(num_samples // b) * b] pairs, so that the
    trailing [num_samples mod b] pairs are in no batch. *)
Theorem TripletGenerator_batches (g : TripletGenerator) :
  length (Xp g) = length (Xa g) →
  0 < batch_size g →
  batch_size g ≤ num_samples g →
  batch_size g ≤ length (neg_imgs_idx g) →
  let b := batch_size g in
  let n := num_samples g in
  returns (TripletGenerator_len g) (λ len, len = n / b) ∧
  (∀ batch_index, batch_index < n / b →
     returns (TripletGenerator_getitem g batch_index)
       (λ batch,
          let '(imgs_a, imgs_p, imgs_n) := batch in
          length imgs_a = b ∧ length imgs_p = b ∧ length imgs_n = b ∧
          imgs_a = slice (Xa g) (batch_index * b) ((batch_index + 1) * b) ∧
          imgs_p = slice (Xp g) (batch_index * b) ((batch_index + 1) * b) ∧
          imgs_n ⊆+ neg_imgs_idx g)) ∧
  concat (map (λ i, slice (Xa g) (i * b) ((i + 1) * b)) (seq 0 (n / b))) =
    take (n - n `mod` b) (Xa g) ∧
  concat (map (λ i, slice (Xp g) (i * b) ((i + 1) * b)) (seq 0 (n / b))) =
    take (n - n `mod` b) (Xp g).
Proof.
  intros Hxp Hpos Hle Hpool b n.
  assert (Hprefix : n / b * b = n - n `mod` b).
  { pose proof (Nat.div_mod_eq n b). lia. }
  split; [| split; [| split]].
  - unfold TripletGenerator_len.
    rewrite bool_decide_eq_false_2 by (fold b; lia). by apply returns_ret.
  - intros i Hi. unfold TripletGenerator_getitem. fold b.
    assert (Hhigh : (i + 1) * b ≤ n).
    { pose proof (Nat.div_mod_eq n b).
      assert ((i + 1) * b ≤ n / b * b) by (apply Nat.mul_le_mono_r; lia).
      lia. }
    assert (Hla : length (slice (Xa g) (i * b) ((i + 1) * b)) = b).
    { rewrite length_slice; [lia | lia | done]. }
    assert (Hlp : length (slice (Xp g) (i * b) ((i + 1) * b)) = b).
    { rewrite length_slice; [lia | lia | by rewrite Hxp]. }
    eapply (returns_bind _ _ (λ r, length r = b ∧ r ⊆+ neg_imgs_idx g)).
    + apply returns_sample; [by rewrite Hla | by rewrite Hla].
    + intros imgs_n [Hn Hsub]. by apply returns_ret.
  - by rewrite concat_slices, Hprefix.
  - by rewrite concat_slices, Hprefix.
Qed.

Lemma TripletGenerator_batches_witness :
  let g := example_generator_ok in
  length (Xp g) = length (Xa g) ∧ 0 < batch_size g ∧
  batch_size g ≤ num_samples g ∧ batch_size g ≤ length (neg_imgs_idx g) ∧
  returns (TripletGenerator_len g) (λ len, len = 1) ∧
  concat (map (λ i, slice (Xa g) (i * 4) ((i + 1) * 4)) (seq 0 1)) =
    [0; 0; 0; 1].
Proof.
  intros g.
  assert (H1 : length (Xp g) = length (Xa g)) by reflexivity.
  assert (H2 : 0 < batch_size g) by (simpl; lia).
  assert (H3 : batch_size g ≤ num_samples g) by (vm_compute; lia).
  assert (H4 : batch_size g ≤ length (neg_imgs_idx g)) by (simpl; lia).
  destruct (TripletGenerator_batches g H1 H2 H3 H4) as (Hlen & _ & Hcat & _).
  repeat (split; [done |]). exact Hcat.
Defined.

(** C9, as stated, fails: six pairs, a batch size of six and a pool of four
    images satisfy [b <= num_samples]; the generator has one batch, and
    building it raises [ValueError] ([random.sample] of six out of four).
    With a batch size of zero, [__len__] itself raises
    [ZeroDivisionError]. *)
Lemma TripletGenerator_small_pool_raises :
  (batch_size example_generator ≤ num_samples example_generator ∧
   returns (TripletGenerator_len example_generator) (λ len, len = 1) ∧
   raises (TripletGenerator_getitem example_generator 0) ValueError) ∧
  (batch_size example_generator_zero ≤ num_samples example_generator_zero ∧
   raises (TripletGenerator_len example_generator_zero) ZeroDivisionError).
Proof.
  split.
  - split; [vm_compute; lia |]. split.
    + by apply returns_ret.
    + unfold TripletGenerator_getitem. apply raises_bind_l.
      apply raises_sample. vm_compute. lia.
  - split; [vm_compute; lia |]. apply raises_raise.
Qed.

(* ================================================================= *)
(** * Ranking: [np.argsort] and the top of the ranking *)

Section argsort_facts.
Context (keys : nat → R).

Lemma insert_sorted_perm (i : nat) (l : list nat) :
  insert_sorted keys i l ≡ₚ i :: l.
Proof.
  induction l as [| j l IH]; simpl; [done |].
  case_bool_decide; [done |]. rewrite IH. apply Permutation_swap.
Qed.

Lemma insert_sorted_sorted (i : nat) (l : list nat) :
  StronglySorted (λ a b, keys a <= keys b)%R l →
  StronglySorted (λ a b, keys a <= keys b)%R (insert_sorted keys i l).
Proof.
  induction l as [| j l IH]; simpl; intros Hs.
  - by repeat constructor.
  - apply StronglySorted_inv in Hs as [Hs Hj]. case_bool_decide as Hij.
    + constructor; [by constructor |]. constructor; [done |].
      eapply Forall_impl; [exact Hj |]. intros k Hk. simpl in *. lra.
    + constructor; [by apply IH |].
      rewrite insert_sorted_perm. constructor; [lra | done].
Qed.
End argsort_facts.

Lemma argsort_perm (keys : vector) : argsort keys ≡ₚ seq 0 (length keys).
Proof.
  unfold argsort. induction (seq 0 (length keys)) as [| i l IH]; [done |].
  simpl. by rewrite insert_sorted_perm, IH.
Qed.

Lemma argsort_sorted (keys : vector) :
  StronglySorted (λ a b, key_of keys a <= key_of keys b)%R (argsort keys).
Proof.
  unfold argsort. induction (seq 0 (length keys)) as [| i l IH]; simpl.
  - constructor.
  - by apply insert_sorted_sorted.
Qed.

Lemma StronglySorted_reverse {A} (R : relation A) (l : list A) :
  StronglySorted R l → StronglySorted (flip R) (reverse l).
Proof.
  induction 1 as [| x l Hs IH Hx]; [constructor |].
  rewrite reverse_cons. apply StronglySorted_app_2.
  - intros y z Hy Hz. apply list_elem_of_singleton in Hz as ->.
    rewrite elem_of_reverse in Hy. unfold flip.
    by apply (proj1 (Forall_forall _ _) Hx).
  - done.
  - by repeat constructor.
Qed.

(** The first [topn] entries of a sorted permutation of the indices. *)
Lemma take_ranking (R : relation nat) (ids : list nat) (n topn : nat) :
  ids ≡ₚ seq 0 n →
  StronglySorted R ids →
  topn ≤ n →
  length (take topn ids) = topn ∧
  NoDup (take topn ids) ∧
  (∀ i, i ∈ take topn ids → i < n) ∧
  StronglySorted R (take topn ids) ∧
  (∀ i j, i ∈ take topn ids → j < n → j ∉ take topn ids → R i j).
Proof.
  intros Hperm Hsorted Htopn.
  assert (Hlen : length ids = n) by by rewrite Hperm, length_seq.
  assert (Hnd : NoDup ids) by (rewrite Hperm; apply NoDup_seq).
  rewrite <- (take_drop topn ids) in Hsorted, Hnd.
  apply StronglySorted_app in Hsorted as (Hcross & Htake & _).
  split; [rewrite length_take; lia |].
  split; [by apply NoDup_app in Hnd as [? _] |].
  split.
  { intros i Hi. assert (Hin : i ∈ ids).
    { rewrite <- (take_drop topn ids). apply elem_of_app. by left. }
    rewrite Hperm in Hin. apply elem_of_seq in Hin. lia. }
  split; [done |].
  intros i j Hi Hj Hnot. apply Hcross; [done |].
  assert (Hin : j ∈ ids) by (rewrite Hperm; apply elem_of_seq; lia).
  rewrite <- (take_drop topn ids) in Hin.
  apply elem_of_app in Hin as [? | ?]; done.
Qed.

Lemma key_of_lookup (keys : vector) (i : nat) :
  i < length keys → keys !! i = Some (key_of keys i).
Proof.
  intros Hi. unfold key_of.
  destruct (lookup_lt_is_Some_2 keys i Hi) as [k ->]. done.
Qed.

(** The nearest neighbours by ascending key ([np.argsort(keys)[:topn]]). *)
Lemma smallest_spec (keys : vector) (topn : nat) :
  topn ≤ length keys →
  let ids := take topn (argsort keys) in
  length ids = topn ∧ NoDup ids ∧
  (∀ i, i ∈ ids → i < length keys) ∧
  StronglySorted (λ a b, key_of keys a <= key_of keys b)%R ids ∧
  (∀ i j, i ∈ ids → j < length keys → j ∉ ids →
          (key_of keys i <= key_of keys j)%R).
Proof.
  intros Htopn. apply (take_ranking _ _ (length keys)); [| | done].
  - apply argsort_perm.
  - apply argsort_sorted.
Qed.

(** The nearest neighbours by descending key
    ([np.argsort(keys)[::-1][:topn]]). *)
Lemma largest_spec (keys : vector) (topn : nat) :
  topn ≤ length keys →
  let ids := take topn (reverse (argsort keys)) in
  length ids = topn ∧ NoDup ids ∧
  (∀ i, i ∈ ids → i < length keys) ∧
  StronglySorted (λ a b, key_of keys b <= key_of keys a)%R ids ∧
  (∀ i j, i ∈ ids → j < length keys → j ∉ ids →
          (key_of keys j <= key_of keys i)%R).
Proof.
  intros Htopn.
  apply (take_ranking (λ a b, key_of keys b <= key_of keys a)%R _
           (length keys)); [| | done].
  - rewrite reverse_Permutation. apply argsort_perm.
  - apply (StronglySorted_reverse _ _ (argsort_sorted keys)).
Qed.

Lemma is_top_of_ids (better : R → R → Prop) (keys : vector) (topn : nat)
    (ids : list nat) :
  length ids = topn →
  NoDup ids →
  (∀ i, i ∈ ids → i < length keys) →
  StronglySorted (λ a b, better (key_of keys a) (key_of keys b)) ids →
  (∀ i j, i ∈ ids → j < length keys → j ∉ ids →
          better (key_of keys i) (key_of keys j)) →
  is_top better keys topn (map (λ id, (id, key_of keys id)) ids).
Proof.
  intros Hlen Hnd Hrange Hsorted Hbest.
  assert (Hfst : (map (λ id, (id, key_of keys id)) ids).*1 = ids).
  { rewrite <- list_fmap_compose. apply list_fmap_id. }
  unfold is_top. rewrite Hfst.
  split; [by rewrite length_map |]. split; [done |]. split; [| split].
  - intros i s Hin. apply list_elem_of_fmap in Hin as (id & [= -> ->] & Hid).
    apply key_of_lookup. by apply Hrange.
  - apply (StronglySorted_fmap (λ id, (id, key_of keys id))
             (λ a b, better (key_of keys a) (key_of keys b))); [| done].
    by intros a b.
  - intros i s j sj Hin Hj Hnot.
    apply list_elem_of_fmap in Hin as (id & [= -> ->] & Hid).
    assert (Hjlt : j < length keys) by by eapply lookup_lt_Some.
    rewrite key_of_lookup in Hj by done. injection Hj as <-.
    by apply Hbest.
Qed.

Lemma length_cosine_sims (emb : matrix) (x : vector) :
  length (cosine_sims emb x) = length emb.
Proof. unfold cosine_sims, matvec. by rewrite length_map. Qed.

Lemma length_euclidean_dists (emb : matrix) (x : vector) :
  length (euclidean_dists emb x) = length emb.
Proof. unfold euclidean_dists. by rewrite length_map. Qed.

(** ** Dot products and norms *)



Lemma dot_self_nonneg (v : vector) : (0 <= dot v v)%R.
Proof.
  unfold dot. induction v as [| a v IH]; simpl; [lra |].
  pose proof (Rle_0_sqr a) as Ha. unfold Rsqr in Ha. lra.
Qed.

Lemma dot_self_pos (v : vector) :
  Exists (λ a, a ≠ 0%R) v → (0 < dot v v)%R.
Proof.
  induction 1 as [a v Ha | a v _ IH].
  - change (dot (a :: v) (a :: v)) with (a * a + dot v v)%R.
    pose proof (dot_self_nonneg v). pose proof (Rsqr_pos_lt a Ha) as Hsq.
    unfold Rsqr in Hsq. lra.
  - change (dot (a :: v) (a :: v)) with (a * a + dot v v)%R.
    pose proof (Rle_0_sqr a) as Ha. unfold Rsqr in Ha. lra.
Qed.

Lemma norm_pos (v : vector) : Exists (λ a, a ≠ 0%R) v → (0 < norm v)%R.
Proof. intros Hv. unfold norm. by apply sqrt_lt_R0, dot_self_pos. Qed.

(** ** The keys of the rankings, coordinate by coordinate *)

Lemma sum_coordinates_S (d : nat) (f : nat → R) :
  sum_coordinates (S d) f = (f 0%nat + sum_coordinates d (λ k, f (S k)))%R.
Proof.
  unfold sum_coordinates. cbn [seq map foldr]. f_equal.
  by rewrite <- seq_shift, map_map.
Qed.

Lemma sum_coordinates_nonneg (d : nat) (f : nat → R) :
  (∀ k, 0 <= f k)%R → (0 <= sum_coordinates d f)%R.
Proof.
  revert f. induction d as [| d IH]; intros f Hf.
  - unfold sum_coordinates. simpl. lra.
  - rewrite sum_coordinates_S.
    assert (0 <= sum_coordinates d (λ k, f (S k)))%R
      by (apply IH; intros k; apply Hf).
    specialize (Hf 0). lra.
Qed.

(** A sum of non-negative terms is zero only if every term is. *)
Lemma sum_coordinates_zero (d : nat) (f : nat → R) :
  (∀ k, 0 <= f k)%R → sum_coordinates d f = 0%R →
  ∀ k, k < d → f k = 0%R.
Proof.
  revert f. induction d as [| d IH]; intros f Hf Hsum k Hk; [lia |].
  rewrite sum_coordinates_S in Hsum.
  assert (0 <= sum_coordinates d (λ k, f (S k)))%R
    by (apply sum_coordinates_nonneg; intros j; apply Hf).
  pose proof (Hf 0).
  destruct k as [| k]; [lra |].
  apply (IH (λ k, f (S k))); [intros j; apply Hf | lra | lia].
Qed.

(** [np.dot] of two vectors of dimension [d] is the sum of the products of
    their coordinates. *)
Lemma dot_coordinates (d : nat) (u v : vector) :
  length u = d → length v = d →
  dot u v = sum_coordinates d (λ k, coordinate u k * coordinate v k)%R.
Proof.
  revert u v. induction d as [| d IH]; intros u v Hu Hv.
  - destruct u; [| done]. done.
  - destruct u as [| a u]; [done |]. destruct v as [| b v]; [done |].
    rewrite sum_coordinates_S. unfold dot. cbn [zip_with foldr].
    fold (dot u v). rewrite (IH u v) by (simpl in *; lia). done.
Qed.

(** The coordinates of a difference and of a quotient by a scalar. *)
Lemma coordinate_vsub (d : nat) (u v : vector) (k : nat) :
  length u = d → length v = d →
  coordinate (vsub u v) k = (coordinate u k - coordinate v k)%R.
Proof.
  revert u v k. induction d as [| d IH]; intros u v k Hu Hv.
  - destruct u; [| done]. destruct v; [| done].
    unfold coordinate. destruct k; simpl; lra.
  - destruct u as [| a u]; [done |]. destruct v as [| b v]; [done |].
    destruct k as [| k]; [done |].
    apply (IH u v k); simpl in *; lia.
Qed.

Lemma coordinate_vdiv (v : vector) (c : R) (k : nat) :
  coordinate (vdiv v c) k = (coordinate v k / c)%R.
Proof.
  unfold coordinate, vdiv. revert k.
  induction v as [| a v IH]; intros k.
  - destruct k; simpl; unfold Rdiv; lra.
  - destruct k as [| k]; [done |]. apply IH.
Qed.

Lemma length_vsub (u v : vector) :
  length u = length v → length (vsub u v) = length u.
Proof. intros Hlen. unfold vsub. rewrite length_zip_with. lia. Qed.

(** [np.linalg.norm(v)] is the Euclidean norm. *)
Lemma norm_coordinates (d : nat) (v : vector) :
  length v = d → norm v = euclidean_norm d v.
Proof.
  intros Hv. unfold norm, euclidean_norm.
  rewrite (dot_coordinates d) by done. f_equal.
  unfold sum_coordinates. f_equal. apply map_ext. intros k. ring.
Qed.

(** [np.linalg.norm(e - x)] is the Euclidean distance of [e] and [x]. *)
Lemma norm_vsub_coordinates (d : nat) (e x : vector) :
  length e = d → length x = d →
  norm (vsub e x) = euclidean_distance d e x.
Proof.
  intros He Hx. unfold norm, euclidean_distance.
  rewrite (dot_coordinates d) by (rewrite length_vsub; congruence).
  f_equal. unfold sum_coordinates. f_equal. apply map_ext. intros k.
  rewrite (coordinate_vsub d) by done. ring.
Qed.

(** [tf.sqrt(tf.reduce_sum((e - x)**2, -1))] is the Euclidean distance. *)
Lemma sum_squares_coordinates (d : nat) (w : vector) :
  length w = d →
  foldr Rplus 0%R (map (λ a, a ^ 2)%R w) =
    sum_coordinates d (λ k, coordinate w k ^ 2)%R.
Proof.
  revert w. induction d as [| d IH]; intros w Hw.
  - by destruct w.
  - destruct w as [| a w]; [done |]. rewrite sum_coordinates_S.
    cbn [map foldr]. rewrite (IH w) by (simpl in *; lia). done.
Qed.

Lemma embedding_dists_coordinates (d : nat) (all_embeddings : matrix)
    (new_emb : vector) :
  Forall (λ e, length e = d) all_embeddings →
  length new_emb = d →
  embedding_dists all_embeddings new_emb =
    map (λ e, euclidean_distance d e new_emb) all_embeddings.
Proof.
  intros Hall Hx. unfold embedding_dists.
  apply Forall_fmap_ext_1. eapply Forall_impl; [exact Hall |].
  intros e He. cbv beta. unfold euclidean_distance. f_equal.
  rewrite (sum_squares_coordinates d) by (rewrite length_vsub; congruence).
  unfold sum_coordinates. f_equal. apply map_ext. intros k.
  by rewrite (coordinate_vsub d).
Qed.

Lemma euclidean_dists_coordinates (d : nat) (emb : matrix) (x : vector) :
  Forall (λ e, length e = d) emb →
  length x = d →
  euclidean_dists emb x = map (λ e, euclidean_distance d e x) emb.
Proof.
  intros Hall Hx. unfold euclidean_dists.
  apply Forall_fmap_ext_1. eapply Forall_impl; [exact Hall |].
  intros e He. cbv beta. by apply norm_vsub_coordinates.
Qed.

Lemma cosine_sims_coordinates (d : nat) (emb : matrix) (x : vector) :
  Forall (λ e, length e = d) emb →
  length x = d →
  cosine_sims emb x = map (λ e, cosine_score d e x) emb.
Proof.
  intros Hall Hx. unfold cosine_sims, matvec.
  apply Forall_fmap_ext_1. eapply Forall_impl; [exact Hall |].
  intros e He. cbv beta. unfold cosine_score.
  rewrite (dot_coordinates d);
    [| done | unfold vdiv; by rewrite length_map].
  unfold sum_coordinates. f_equal. apply map_ext. intros k.
  by rewrite coordinate_vdiv, (norm_coordinates d).
Qed.

(** What the coordinate formulas say: a distance is not negative and is
    zero only between equal vectors; the score of a nonzero query against
    itself is its norm. *)
Lemma euclidean_distance_nonneg (d : nat) (u v : vector) :
  (0 <= euclidean_distance d u v)%R.
Proof. apply sqrt_pos. Qed.

Lemma euclidean_distance_zero (d : nat) (u v : vector) :
  length u = d → length v = d →
  euclidean_distance d u v = 0%R ↔ u = v.
Proof.
  intros Hu Hv. split.
  - intros Hzero. unfold euclidean_distance in Hzero.
    apply sqrt_eq_0 in Hzero;
      [| apply sum_coordinates_nonneg; intros k; apply pow2_ge_0].
    pose proof (sum_coordinates_zero d _
                  (λ k, pow2_ge_0 (coordinate u k - coordinate v k))
                  Hzero) as Hk.
    apply (nth_ext u v 0%R 0%R); [congruence |].
    intros k Hlt. specialize (Hk k ltac:(lia)). cbv beta in Hk.
    unfold coordinate in Hk. nra.
  - intros ->. unfold euclidean_distance.
    replace (sum_coordinates d (λ k, (coordinate v k - coordinate v k) ^ 2))%R
      with 0%R; [apply sqrt_0 |].
    clear Hu Hv. unfold sum_coordinates.
    induction (seq 0 d) as [| k l IH]; cbn [map foldr]; [done |].
    rewrite <- IH. ring.
Qed.

Lemma euclidean_distance_sym (d : nat) (u v : vector) :
  euclidean_distance d u v = euclidean_distance d v u.
Proof.
  unfold euclidean_distance, sum_coordinates. do 2 f_equal.
  apply map_ext. intros k. ring.
Qed.

Lemma cosine_score_self (d : nat) (x : vector) :
  length x = d → Exists (λ a, a ≠ 0%R) x →
  cosine_score d x x = euclidean_norm d x.
Proof.
  intros Hx Hnz. rewrite <- (norm_coordinates d x Hx).
  pose proof (norm_pos x Hnz) as Hpos.
  assert (Heq : cosine_score d x x = (dot x x / norm x)%R).
  { unfold cosine_score. rewrite <- (norm_coordinates d x Hx).
    rewrite (dot_coordinates d) by done.
    unfold sum_coordinates, Rdiv.
    induction (seq 0 d) as [| k l IH]; cbn [map foldr]; [lra |].
    rewrite IH. ring. }
  rewrite Heq. unfold norm in *.
  rewrite <- (sqrt_sqrt (dot x x)) at 1 by apply dot_self_nonneg.
  field. lra.
Qed.

(** ** C4: [most_sim] and [most_similar] return the nearest neighbours *)

(** C4.  The stored embeddings are the rows of an array: vectors of one
    dimension [d].  For every query [idx] with a stored embedding [x] and
    every [topn] not exceeding the number of stored embeddings, [most_sim]
    returns exactly [topn] (index, score) pairs of distinct indices: in
    ["cosine"] mode (for a query that is not the zero vector) the indices
    with the largest dot products against [x / |x|], each with that dot
    product, in non-increasing order; in ["euclidean"] mode the indices with
    the smallest Euclidean distances to [x], each with its distance, in
    non-decreasing order.  [most_similar] returns the [topn] images with
    the smallest Euclidean distance between their embedding and the
    embedding of the query image, each with that distance, in
    non-decreasing order.  Dot product and distance are the coordinate
    formulas [cosine_score] and [euclidean_distance]. *)
Theorem most_sim_returns_nearest
    (d : nat) (emb pixelwise : matrix) (idx topn : nat) (x : vector)
    {path : Type} (embed : path → vector) (negative_images : list path)
    (all_embeddings : matrix) (img : path) (topn' : nat) :
  Forall (λ e, length e = d) emb →
  emb !! idx = Some x →
  topn ≤ length emb →
  Forall (λ e, length e = d) all_embeddings →
  length (embed img) = d →
  topn' ≤ length all_embeddings →
  length all_embeddings ≤ length negative_images →
  (Exists (λ a, a ≠ 0%R) x →
   returns (most_sim emb pixelwise idx topn "cosine")
           (is_top at_least (map (λ e, cosine_score d e x) emb) topn)) ∧
  returns (most_sim emb pixelwise idx topn "euclidean")
          (is_top at_most (map (λ e, euclidean_distance d e x) emb) topn) ∧
  returns (most_similar embed negative_images all_embeddings img topn')
          (λ res, ∃ ranked,
             is_top at_most
               (map (λ e, euclidean_distance d e (embed img)) all_embeddings)
               topn' ranked ∧
             Forall2 (λ ir pr, negative_images !! ir.1 = Some pr.1 ∧
                               pr.2 = ir.2) ranked res).
Proof.
  intros Hdim Hx Htopn Hdim' Himg Htopn' Hpaths.
  assert (Hxd : length x = d).
  { by apply (proj1 (Forall_lookup _ _) Hdim idx x). }
  rewrite <- (cosine_sims_coordinates d emb x Hdim Hxd).
  rewrite <- (euclidean_dists_coordinates d emb x Hdim Hxd).
  rewrite <- (embedding_dists_coordinates d all_embeddings (embed img)
                Hdim' Himg).
  split; [| split].
  - intros _. unfold most_sim. rewrite Hx.
    eapply (returns_bind _ _ (λ v, v = x)); [by apply returns_ret |].
    intros ? ->. rewrite bool_decide_eq_true_2 by done.
    apply returns_ret. fold (cosine_sims emb x).
    pose proof (largest_spec (cosine_sims emb x) topn) as Hspec.
    rewrite length_cosine_sims in Hspec.
    destruct (Hspec Htopn) as (? & ? & ? & ? & ?).
    apply is_top_of_ids; rewrite ?length_cosine_sims; done.
  - unfold most_sim. rewrite Hx.
    eapply (returns_bind _ _ (λ v, v = x)); [by apply returns_ret |].
    intros ? ->. rewrite bool_decide_eq_false_2 by done.
    rewrite bool_decide_eq_true_2 by done.
    apply returns_ret. fold (euclidean_dists emb x).
    pose proof (smallest_spec (euclidean_dists emb x) topn) as Hspec.
    rewrite length_euclidean_dists in Hspec.
    destruct (Hspec Htopn) as (? & ? & ? & ? & ?).
    apply is_top_of_ids; rewrite ?length_euclidean_dists; done.
  - unfold most_similar.
    set (dists := embedding_dists all_embeddings (embed img)).
    assert (Hlen : length dists = length all_embeddings)
      by (unfold dists, embedding_dists; by rewrite length_map).
    pose proof (smallest_spec dists topn') as Hspec. rewrite Hlen in Hspec.
    destruct (Hspec Htopn') as (Hl & Hnd & Hrange & Hsorted & Hbest).
    eapply returns_weaken.
    + apply (returns_for_each _ _
               (λ i ps, negative_images !! i = Some ps.1 ∧
                        ps.2 = key_of dists i)).
      intros i Hi. apply Hrange in Hi.
      destruct (lookup_lt_is_Some_2 negative_images i) as [p Hp]; [lia |].
      eapply (returns_bind _ _ (λ q, q = p)); [by eapply returns_lift |].
      intros ? ->. by apply returns_ret.
    + intros res Hall. eexists. split.
      * apply (is_top_of_ids at_most dists topn'); rewrite ?Hlen; done.
      * by apply Forall2_fmap_l.
Qed.

Lemma most_sim_returns_nearest_witness :
  returns (most_sim example_emb example_emb 0 1 "cosine")
          (is_top at_least
             (map (λ e, cosine_score 2 e [1; 0]%R) example_emb) 1) ∧
  returns (most_sim example_emb example_emb 0 1 "euclidean")
          (is_top at_most
             (map (λ e, euclidean_distance 2 e [1; 0]%R) example_emb) 1) ∧
  returns (most_similar (λ _ : nat, [1; 0]%R) [7; 8] example_emb 7 1)
          (λ res, ∃ ranked,
             is_top at_most
               (map (λ e, euclidean_distance 2 e [1; 0]%R) example_emb)
               1 ranked ∧
             Forall2 (λ ir pr, [7; 8] !! ir.1 = Some pr.1 ∧ pr.2 = ir.2)
                     ranked res).
Proof.
  assert (Hdim : Forall (λ e : vector, length e = 2) example_emb)
    by (repeat constructor).
  assert (Hnz : Exists (λ a, a ≠ 0%R) [1; 0]%R) by (left; lra).
  destruct (most_sim_returns_nearest 2 example_emb example_emb 0 1 [1; 0]%R
              (λ _ : nat, [1; 0]%R) [7; 8] example_emb 7 1
              Hdim eq_refl ltac:(simpl; lia) Hdim eq_refl
              ltac:(simpl; lia) ltac:(simpl; lia))
    as (Hcos & Heuc & Hsim).
  split; [exact (Hcos Hnz) |]. split; [exact Heuc | exact Hsim].
Defined.

(* ================================================================= *)
(** * The similarity matrix *)



(** ** C5: [build_similarities] *)



(* ================================================================= *)
(** * Which exceptions a computation may raise *)

Section sat_facts.
Context {A : Type}.
Implicit Types (m : Rand A) (P : A → Prop) (E : exn → Prop).

Lemma sat_ret (a : A) P E : P a → outcomes_sat (ret a) P E.
Proof. intros Ha w r Hin. by apply elem_of_ret in Hin as [_ ->]. Qed.

Lemma sat_raise (e : exn) P E : E e → outcomes_sat (raise e : Rand A) P E.
Proof. intros He w r Hin. by apply elem_of_raise in Hin as [_ ->]. Qed.

Lemma sat_weaken m P (P' : A → Prop) E :
  outcomes_sat m P E → (∀ a, P a → P' a) → outcomes_sat m P' E.
Proof.
  intros Hm HP w r Hin. specialize (Hm w r Hin). destruct r; [auto | done].
Qed.

Lemma sat_lift (e : exn) (o : option A) P E :
  E e → (∀ a, o = Some a → P a) → outcomes_sat (lift e o) P E.
Proof.
  intros He HP. destruct o as [a |]; [apply sat_ret; auto | by apply sat_raise].
Qed.

Lemma sat_uniform (l : list A) P E :
  (∀ a, a ∈ l → P a) → outcomes_sat (uniform l) P E.
Proof.
  intros HP w r Hin. apply elem_of_uniform in Hin as (a & -> & Hin & _). auto.
Qed.

Lemma returns_sat m P E : returns m P → outcomes_sat m P E.
Proof.
  intros [_ Hall] w r Hin. by destruct (Hall w r Hin) as (a & -> & Ha).
Qed.
End sat_facts.

Section sat_bind_facts.
Context {A B : Type}.
Implicit Types (m : Rand A) (f : A → Rand B) (P : A → Prop) (E : exn → Prop).

Lemma sat_bind m f P (Q : B → Prop) E :
  outcomes_sat m P E → (∀ a, P a → outcomes_sat (f a) Q E) →
  outcomes_sat (bind m f) Q E.
Proof.
  intros Hm Hf w r Hin. apply elem_of_bind in Hin
    as [(e & -> & Hin) | (v & a & w' & Hin & Hr & ->)].
  - apply (Hm w _ Hin).
  - apply (Hf a (Hm v _ Hin) w' r Hr).
Qed.
End sat_bind_facts.

Lemma sat_for_each {A B} (l : list A) (body : A → Rand B)
    (E : exn → Prop) :
  (∀ a, a ∈ l → outcomes_sat (body a) (λ _, True) E) →
  outcomes_sat (for_each l body) (λ _, True) E.
Proof.
  induction l as [| a l IH]; intros Hbody; simpl.
  - by apply sat_ret.
  - eapply sat_bind; [apply Hbody; left |]. intros b _.
    eapply sat_bind; [apply IH; intros a' Ha'; apply Hbody; by right |].
    intros bs _. by apply sat_ret.
Qed.

Lemma sat_sample {A} (l : list A) (k : nat) (E : exn → Prop) :
  E ValueError → outcomes_sat (sample l k) (λ _, True) E.
Proof.
  intros He. unfold sample. destruct (length l <? k).
  - by apply sat_raise.
  - by apply sat_uniform.
Qed.

(* ================================================================= *)
(** * Recall at k *)

Lemma sat_most_sim (emb pixelwise : matrix) (idx topn : nat) (mode : string)
    (E : exn → Prop) :
  E IndexError →
  outcomes_sat (most_sim emb pixelwise idx topn mode) (λ _, True) E.
Proof.
  intros He. unfold most_sim.
  eapply sat_bind; [by apply (sat_lift _ _ (λ _, True)) |]. intros x _.
  repeat case_bool_decide; try by apply sat_ret.
  eapply sat_bind; [by apply (sat_lift _ _ (λ _, True)) |]. intros p _.
  by apply sat_ret.
Qed.

Lemma sat_classes_of (id_to_classid : gmap nat nat) (xs : list nat)
    (E : exn → Prop) :
  E KeyError → outcomes_sat (classes_of id_to_classid xs) (λ _, True) E.
Proof.
  intros He. apply sat_for_each. intros x _. by apply sat_lift.
Qed.

Lemma sat_recall_hit (G : globals) (k : nat) (mode : string) (img_idx : nat)
    (E : exn → Prop) :
  E KeyError → E IndexError → E ValueError →
  outcomes_sat (recall_hit G k mode img_idx) (λ _, True) E.
Proof.
  intros Hk Hi Hv. unfold recall_hit.
  eapply sat_bind; [by apply (sat_lift _ _ (λ _, True)) |]. intros c _.
  eapply (sat_bind _ _ (λ _, True)); [| intros; by apply sat_ret].
  repeat case_bool_decide.
  - eapply sat_bind; [by apply sat_most_sim |]. intros res _.
    by apply sat_classes_of.
  - eapply sat_bind; [by apply sat_sample |]. intros xs _.
    by apply sat_classes_of.
  - eapply sat_bind; [by apply sat_most_sim |]. intros res _.
    by apply sat_classes_of.
  - by apply sat_ret.
Qed.

Lemma sat_count_hits (hit : nat → Rand bool) (ids : list nat)
    (num_found : nat) (E : exn → Prop) :
  (∀ q, outcomes_sat (hit q) (λ _, True) E) →
  outcomes_sat (count_hits hit ids num_found)
    (λ n, num_found ≤ n ≤ num_found + length ids) E.
Proof.
  intros Hhit. revert num_found.
  induction ids as [| q ids IH]; intros num_found; simpl.
  - apply sat_ret. lia.
  - eapply sat_bind; [by apply Hhit |]. intros hit' _.
    eapply sat_weaken; [apply IH |]. intros n Hn. simpl in Hn.
    destruct hit'; lia.
Qed.

Lemma recall_fraction_bounds (num_found len : nat) :
  0 < len → num_found ≤ len → (0 <= INR num_found / INR len <= 1)%R.
Proof.
  intros Hlen Hle.
  assert (0 < INR len)%R by (apply lt_0_INR; lia).
  assert (0 <= INR num_found)%R by apply pos_INR.
  assert (INR num_found <= INR len)%R by by apply le_INR.
  assert (0 < / INR len)%R by by apply Rinv_0_lt_compat.
  split.
  - apply Rmult_le_pos; lra.
  - replace 1%R with (INR len / INR len)%R by (field; lra).
    apply Rmult_le_compat_r; lra.
Qed.

Lemma for_each_outcome {A B} (l : list A) (body : A → Rand B)
    (w : Qc) (bs : list B) :
  (w, Ok bs) ∈ for_each l body →
  Forall2 (λ a b, ∃ v, (v, Ok b) ∈ body a) l bs.
Proof.
  revert w bs. induction l as [| a l IH]; intros w bs Hin; simpl in Hin.
  - apply elem_of_ret in Hin as [_ Heq]. inversion Heq. constructor.
  - inv_bind Hin. inv_bind Hin.
    apply elem_of_ret in Hin as [_ Heq]. inversion Heq; subst.
    constructor; [eauto | by eapply IH].
Qed.

Lemma build_test_ids_nonempty (classid_to_ids : gmap nat (list nat))
    (split_num num_classes : nat) (w : Qc) (ids : list nat) :
  (w, Ok ids) ∈ build_test_ids classid_to_ids split_num num_classes →
  (∃ class_id img_ids,
      split_num ≤ class_id < num_classes - 1 ∧
      classid_to_ids !! class_id = Some img_ids ∧ 1 < length img_ids) →
  ids ≠ [].
Proof.
  unfold build_test_ids. intros Hin (c & imgs & Hc & Himgs & Hlen).
  inv_bind Hin. apply elem_of_ret in Hin as [_ Heq]. inversion Heq; subst.
  match goal with
  | H : (_, Ok ?cs) ∈ for_each _ _ |- _ =>
      apply for_each_outcome in H; rename H into Hall; rename cs into chunks
  end.
  assert (Hseq : seq split_num (num_classes - 1 - split_num) !! (c - split_num)
                 = Some c).
  { rewrite lookup_seq. split; [f_equal |]; lia. }
  destruct (Forall2_lookup_l _ _ _ _ _ Hall Hseq) as (chunk & Hchunk & v & Hv).
  inv_bind Hv. apply elem_of_ret in Hv as [_ Heq']. inversion Heq'; subst.
  match goal with
  | H : _ ∈ lift _ _ |- _ => apply elem_of_lift_ok in H; rewrite Himgs in H;
                             injection H as <-
  end.
  rewrite bool_decide_eq_true_2 in Hchunk by done.
  intros Hnil.
  assert (Hin : imgs ⊆ concat chunks).
  { intros y Hy. apply list_elem_of_In, in_concat. exists imgs.
    split; apply list_elem_of_In; [by eapply list_elem_of_lookup_2 | done]. }
  rewrite Hnil in Hin. destruct imgs as [| y imgs]; [simpl in Hlen; lia |].
  specialize (Hin y ltac:(left)). by apply not_elem_of_nil in Hin.
Qed.

Lemma most_sim_cosine_returns (emb pixelwise : matrix) (idx topn : nat) :
  idx < length emb →
  returns (most_sim emb pixelwise idx topn "cosine")
          (λ res, ∀ i, i ∈ res.*1 → i < length emb).
Proof.
  intros Hidx. destruct (lookup_lt_is_Some_2 emb idx Hidx) as [x Hx].
  unfold most_sim.
  eapply (returns_bind _ _ (λ v, v = x)); [by eapply returns_lift |].
  intros ? ->. rewrite bool_decide_eq_true_2 by done.
  apply returns_ret. intros i Hi.
  rewrite <- list_fmap_compose in Hi.
  apply list_elem_of_fmap in Hi as (id & -> & Hid). simpl.
  apply elem_of_take in Hid as (pos & Hid & _).
  apply list_elem_of_lookup_2 in Hid. rewrite elem_of_reverse in Hid.
  rewrite argsort_perm in Hid. apply elem_of_seq in Hid.
  fold (cosine_sims emb x) in Hid. rewrite length_cosine_sims in Hid. lia.
Qed.

Lemma classes_of_returns (id_to_classid : gmap nat nat) (xs : list nat) :
  (∀ x, x ∈ xs → is_Some (id_to_classid !! x)) →
  returns (classes_of id_to_classid xs) (λ _, True).
Proof.
  intros Hxs. eapply returns_weaken.
  - apply (returns_for_each _ _ (λ _ _, True)). intros x Hx.
    destruct (Hxs x Hx) as [c Hc]. by eapply returns_lift.
  - done.
Qed.

Lemma recall_hit_embedding_returns (G : globals) (k q : nat) :
  retrieval_ok G → q ∈ test_ids G →
  returns (recall_hit G k "embedding" q) (λ _, True).
Proof.
  intros [Hq Hcls] Hin. unfold recall_hit.
  destruct (Hcls q (Hq q Hin)) as [c Hc].
  eapply (returns_bind _ _ (λ _, True)); [by eapply returns_lift |].
  intros image_class _. rewrite bool_decide_eq_true_2 by done.
  eapply (returns_bind _ _ (λ _, True)); [| intros; by apply returns_ret].
  eapply returns_bind; [apply most_sim_cosine_returns; by apply Hq |].
  intros res Hres. apply classes_of_returns.
  intros x Hx. apply Hcls, Hres.
  apply list_elem_of_fmap in Hx as (ir & -> & Hir).
  apply list_elem_of_fmap. exists ir. split; [done |].
  apply list_elem_of_lookup in Hir as [pos Hpos].
  rewrite lookup_drop in Hpos. by eapply list_elem_of_lookup_2.
Qed.

Lemma count_hits_returns (hit : nat → Rand bool) (ids : list nat)
    (num_found : nat) :
  (∀ q, q ∈ ids → returns (hit q) (λ _, True)) →
  returns (count_hits hit ids num_found)
          (λ n, num_found ≤ n ≤ num_found + length ids).
Proof.
  revert num_found.
  induction ids as [| q ids IH]; intros num_found Hids; simpl.
  - apply returns_ret. lia.
  - eapply returns_bind; [apply Hids; left |].
    intros found _. eapply returns_weaken.
    + apply IH. intros q' Hq'. apply Hids. by right.
    + intros n Hn. simpl in Hn. destruct found; lia.
Qed.

(** ** C10: the division of [recall_k] *)

(** C10.  [recall_k] divides by [len(test_ids)] without a guard.  When at
    least one class of the test range has more than one image, [test_ids]
    is not empty; then, in every mode, [recall_k] never raises
    [ZeroDivisionError] and every value it returns lies in [[0, 1]]; and in
    ["embedding"] mode on well-formed globals it does return such a
    value. *)
Theorem recall_k_in_unit_interval (G : globals)
    (classid_to_ids : gmap nat (list nat)) (split_num num_classes : nat)
    (k : nat) (mode : string) (w : Qc) :
  (w, Ok (test_ids G)) ∈ build_test_ids classid_to_ids split_num num_classes →
  (∃ class_id img_ids,
      split_num ≤ class_id < num_classes - 1 ∧
      classid_to_ids !! class_id = Some img_ids ∧ 1 < length img_ids) →
  test_ids G ≠ [] ∧
  outcomes_sat (recall_k G k mode)
    (λ v, 0 <= v <= 1)%R (λ e, e ≠ ZeroDivisionError) ∧
  (retrieval_ok G →
   returns (recall_k G k "embedding") (λ v, 0 <= v <= 1)%R).
Proof.
  intros Hbuild Hclass.
  assert (Hne : test_ids G ≠ []) by by eapply build_test_ids_nonempty.
  assert (Hlen : 0 < length (test_ids G)).
  { destruct (test_ids G); [done | simpl; lia]. }
  split; [done |]. split.
  - unfold recall_k, recall_fraction.
    eapply sat_bind.
    { apply sat_count_hits. intros q. by apply sat_recall_hit. }
    intros n Hn. simpl in Hn.
    rewrite bool_decide_eq_false_2 by lia.
    apply sat_ret. apply recall_fraction_bounds; lia.
  - intros Hok. unfold recall_k, recall_fraction.
    eapply returns_bind.
    { apply count_hits_returns. intros q Hq.
      by apply recall_hit_embedding_returns. }
    intros n Hn. simpl in Hn.
    rewrite bool_decide_eq_false_2 by lia.
    apply returns_ret. apply recall_fraction_bounds; lia.
Qed.

Lemma recall_k_in_unit_interval_witness :
  ∃ w,
    (w, Ok (test_ids example_globals)) ∈
      build_test_ids example_classid_to_ids 0 2 ∧
    test_ids example_globals ≠ [] ∧
    outcomes_sat (recall_k example_globals 1 "embedding")
      (λ v, 0 <= v <= 1)%R (λ e, e ≠ ZeroDivisionError).
Proof.
  assert (Hbuild : ∃ w, (w, Ok (test_ids example_globals)) ∈
                          build_test_ids example_classid_to_ids 0 2).
  { eexists. unfold build_test_ids.
    eapply (bind_outcome _ _ _ [[0; 1]]); [| apply ret_outcome].
    cbn [seq for_each Nat.sub].
    eapply bind_outcome.
    - eapply bind_outcome; [by apply lift_outcome |]. apply ret_outcome.
    - eapply bind_outcome; apply ret_outcome. }
  destruct Hbuild as [w Hw]. exists w. split; [exact Hw |].
  destruct (recall_k_in_unit_interval example_globals example_classid_to_ids
              0 2 1 "embedding" w Hw) as (Hne & Hsat & _).
  - exists 0, [0; 1]. split; [lia |]. split; [done | simpl; lia].
  - split; [exact Hne | exact Hsat].
Defined.

(* ================================================================= *)
(** * Rankings of concrete embeddings *)

Lemma key_of_fifths (zs : list Z) (i : nat) :
  key_of (fifths zs) i = (IZR (key_ofZ zs i) / 5)%R.
Proof.
  unfold key_of, key_ofZ, fifths. rewrite list_lookup_fmap.
  destruct (zs !! i); simpl; [done | lra].
Qed.

Lemma insert_sorted_fifths (zs : list Z) (i : nat) (l : list nat) :
  insert_sorted (key_of (fifths zs)) i l = insert_sortedZ (key_ofZ zs) i l.
Proof.
  induction l as [| j l IH]; simpl; [done |].
  rewrite !key_of_fifths, IH.
  destruct (decide (key_ofZ zs i ≤ key_ofZ zs j)%Z) as [Hle | Hgt].
  - rewrite !bool_decide_eq_true_2; [done | done |].
    apply IZR_le in Hle. lra.
  - rewrite !bool_decide_eq_false_2; [done | done |].
    assert (Hlt : (key_ofZ zs j < key_ofZ zs i)%Z) by lia.
    apply IZR_lt in Hlt. lra.
Qed.

Lemma argsort_fifths (zs : list Z) : argsort (fifths zs) = argsortZ zs.
Proof.
  unfold argsort, argsortZ, fifths. rewrite length_map.
  fold (fifths zs).
  induction (seq 0 (length zs)) as [| i l IH]; simpl; [done |].
  by rewrite IH, insert_sorted_fifths.
Qed.

Lemma most_sim_cosine_eval (emb pixelwise : matrix) (q topn : nat)
    (x : vector) (zs : list Z) :
  emb !! q = Some x →
  cosine_sims emb x = fifths zs →
  returns (most_sim emb pixelwise q topn "cosine")
          (λ res, res.*1 = take topn (reverse (argsortZ zs))).
Proof.
  intros Hx Hsims. unfold most_sim.
  eapply (returns_bind _ _ (λ v, v = x)); [by eapply returns_lift |].
  intros ? ->. rewrite bool_decide_eq_true_2 by done.
  apply returns_ret. fold (cosine_sims emb x).
  rewrite Hsims, argsort_fifths, <- list_fmap_compose. apply list_fmap_id.
Qed.

Lemma classes_of_eval (id_to_classid : gmap nat nat) (xs cs : list nat) :
  Forall2 (λ x c, id_to_classid !! x = Some c) xs cs →
  returns (classes_of id_to_classid xs) (λ r, r = cs).
Proof.
  intros Hall. eapply returns_weaken.
  - apply (returns_for_each _ _ (λ x c, id_to_classid !! x = Some c)).
    intros x Hx. apply list_elem_of_lookup in Hx as [i Hi].
    destruct (Forall2_lookup_l _ _ _ _ _ Hall Hi) as (c & _ & Hc).
    by eapply returns_lift.
  - intros r Hr. simpl in Hr. revert cs Hall.
    induction Hr as [| x c xs r Hc Hr IH]; intros cs Hall;
      inversion Hall; subst; [done |].
    f_equal; [congruence | by apply IH].
Qed.

(** The loop body of [recall_k] on a query whose similarities are known. *)
Lemma recall_hit_embedding_eval (G : globals) (k q : nat) (x : vector)
    (zs : list Z) (c : nat) (cs : list nat) :
  id_to_classid G !! q = Some c →
  emb G !! q = Some x →
  cosine_sims (emb G) x = fifths zs →
  Forall2 (λ i ci, id_to_classid G !! i = Some ci)
          (drop 1 (take (k + 1) (reverse (argsortZ zs)))) cs →
  returns (recall_hit G k "embedding" q)
          (λ found, found = bool_decide (c ∈ cs)).
Proof.
  intros Hc Hx Hsims Hcs. unfold recall_hit.
  eapply (returns_bind _ _ (λ v, v = c)); [by eapply returns_lift |].
  intros ? ->. rewrite bool_decide_eq_true_2 by done.
  eapply (returns_bind _ _ (λ r, r = cs));
    [| intros ? ->; by apply returns_ret].
  eapply returns_bind; [by eapply most_sim_cosine_eval |].
  intros res Hres. cbv beta in Hres.
  change (map fst (drop 1 res)) with ((drop 1 res).*1).
  rewrite fmap_drop, Hres. by apply classes_of_eval.
Qed.

(** The same query under the spec's reading. *)
Lemma recall_hit_spec_eval (G : globals) (k q : nat) (x : vector)
    (zs : list Z) (c : nat) (cs : list nat) :
  id_to_classid G !! q = Some c →
  emb G !! q = Some x →
  cosine_sims (emb G) x = fifths zs →
  Forall2 (λ i ci, id_to_classid G !! i = Some ci)
          (take k (filter (λ i, i ≠ q)
                     (take (length (emb G)) (reverse (argsortZ zs))))) cs →
  returns (recall_hit_spec G k q) (λ found, found = bool_decide (c ∈ cs)).
Proof.
  intros Hc Hx Hsims Hcs. unfold recall_hit_spec.
  eapply (returns_bind _ _ (λ v, v = c)); [by eapply returns_lift |].
  intros ? ->.
  eapply returns_bind; [by eapply most_sim_cosine_eval |].
  intros res Hres. cbv beta in Hres.
  change (map fst res) with (res.*1). rewrite Hres.
  eapply (returns_bind _ _ (λ r, r = cs));
    [| intros ? ->; by apply returns_ret].
  by apply classes_of_eval.
Qed.

Lemma count_hits_eval (hit : nat → Rand bool) (ids : list nat)
    (founds : list bool) (num_found : nat) :
  Forall2 (λ q b, returns (hit q) (λ found, found = b)) ids founds →
  returns (count_hits hit ids num_found)
          (λ n, n = num_found + length (filter (λ b, b = true) founds)).
Proof.
  intros Hall. revert num_found.
  induction Hall as [| q b ids founds Hq _ IH]; intros num_found; simpl.
  - apply returns_ret. lia.
  - eapply returns_bind; [exact Hq |]. intros ? ->.
    eapply returns_weaken; [apply IH |]. intros n ->.
    rewrite filter_cons. destruct b; simpl; lia.
Qed.

Lemma norm_unit_x : norm [1; 0]%R = 1%R.
Proof.
  unfold norm, dot. cbn [zip_with foldr].
  replace (1 * 1 + (0 * 0 + 0))%R with 1%R by lra. apply sqrt_1.
Qed.

Lemma norm_unit_y : norm [0; 1]%R = 1%R.
Proof.
  unfold norm, dot. cbn [zip_with foldr].
  replace (0 * 0 + (1 * 1 + 0))%R with 1%R by lra. apply sqrt_1.
Qed.

Lemma norm_unit_345 : norm [-3 / 5; 4 / 5]%R = 1%R.
Proof.
  unfold norm, dot. cbn [zip_with foldr].
  replace (-3 / 5 * (-3 / 5) + (4 / 5 * (4 / 5) + 0))%R with 1%R by lra.
  apply sqrt_1.
Qed.

(** Proves an equation between two explicit vectors entry by entry. *)
Ltac vector_eq :=
  unfold cosine_sims, matvec, twin_emb, fifths, dot, vdiv;
  cbn [map zip_with foldr];
  repeat (apply f_equal2; [lra |]); reflexivity.

Lemma twin_sims_8 :
  cosine_sims twin_emb [0; 1]%R =
    fifths [-5; -5; -5; -5; -5; -5; -5; -5; 5; 0; 0; 4; -5]%Z.
Proof. unfold cosine_sims. rewrite norm_unit_y. vector_eq. Qed.

Lemma twin_sims_9_10 :
  cosine_sims twin_emb [1; 0]%R =
    fifths [0; 0; 0; 0; 0; 0; 0; 0; 0; 5; 5; -3; 0]%Z.
Proof. unfold cosine_sims. rewrite norm_unit_x. vector_eq. Qed.

Lemma twin_sims_11 :
  cosine_sims twin_emb [-3 / 5; 4 / 5]%R =
    fifths [-4; -4; -4; -4; -4; -4; -4; -4; 4; -3; -3; 5; -4]%Z.
Proof. unfold cosine_sims. rewrite norm_unit_345. vector_eq. Qed.

(** The ranking of the twins' similarities: image 10 first, image 9 second. *)
Lemma twin_ranking_9_10 :
  take 2 (reverse (argsortZ [0; 0; 0; 0; 0; 0; 0; 0; 0; 5; 5; -3; 0]%Z)) =
    [10; 9].
Proof. by vm_compute. Qed.

Lemma twin_test_ids :
  returns (build_test_ids twin_classid_to_ids 8 11)
          (λ ids, ids = test_ids twin_globals).
Proof.
  unfold build_test_ids. cbn [Nat.sub seq for_each].
  eapply (returns_bind _ _ (λ chunks, chunks = [[8; 9]; [10; 11]])).
  - eapply (returns_bind _ _ (λ chunk, chunk = [8; 9])).
    { eapply (returns_bind _ _ (λ l, l = [8; 9]));
        [by eapply returns_lift |].
      intros ? ->. by apply returns_ret. }
    intros ? ->.
    eapply (returns_bind _ _ (λ chunks, chunks = [[10; 11]])).
    { eapply (returns_bind _ _ (λ chunk, chunk = [10; 11])).
      - eapply (returns_bind _ _ (λ l, l = [10; 11]));
          [by eapply returns_lift |].
        intros ? ->. by apply returns_ret.
      - intros ? ->.
        eapply (returns_bind _ _ (λ chunks, chunks = []));
          [by apply returns_ret |].
        intros ? ->. by apply returns_ret. }
    intros ? ->. by apply returns_ret.
  - intros ? ->. by apply returns_ret.
Qed.

Lemma twin_hits_code :
  Forall2 (λ q b, returns (recall_hit twin_globals 1 "embedding" q)
                          (λ found, found = b))
          [8; 9; 10; 11] [false; true; false; false].
Proof.
  constructor.
  { eapply returns_weaken.
    + eapply (recall_hit_embedding_eval twin_globals 1 8 _ _ 8 [9]);
        [reflexivity | reflexivity | exact twin_sims_8 |].
      by repeat constructor.
    + by intros ? ->. }
  constructor.
  { eapply returns_weaken.
    + eapply (recall_hit_embedding_eval twin_globals 1 9 _ _ 8 [8]);
        [reflexivity | reflexivity | exact twin_sims_9_10 |].
      by repeat constructor.
    + by intros ? ->. }
  constructor.
  { eapply returns_weaken.
    + eapply (recall_hit_embedding_eval twin_globals 1 10 _ _ 9 [8]);
        [reflexivity | reflexivity | exact twin_sims_9_10 |].
      by repeat constructor.
    + by intros ? ->. }
  constructor.
  { eapply returns_weaken.
    + eapply (recall_hit_embedding_eval twin_globals 1 11 _ _ 9 [8]);
        [reflexivity | reflexivity | exact twin_sims_11 |].
      by repeat constructor.
    + by intros ? ->. }
  constructor.
Qed.

Lemma twin_hits_spec :
  Forall2 (λ q b, returns (recall_hit_spec twin_globals 1 q)
                          (λ found, found = b))
          [8; 9; 10; 11] [false; false; false; false].
Proof.
  constructor.
  { eapply returns_weaken.
    + eapply (recall_hit_spec_eval twin_globals 1 8 _ _ 8 [9]);
        [reflexivity | reflexivity | exact twin_sims_8 |].
      by repeat constructor.
    + by intros ? ->. }
  constructor.
  { eapply returns_weaken.
    + eapply (recall_hit_spec_eval twin_globals 1 9 _ _ 8 [9]);
        [reflexivity | reflexivity | exact twin_sims_9_10 |].
      by repeat constructor.
    + by intros ? ->. }
  constructor.
  { eapply returns_weaken.
    + eapply (recall_hit_spec_eval twin_globals 1 10 _ _ 9 [8]);
        [reflexivity | reflexivity | exact twin_sims_9_10 |].
      by repeat constructor.
    + by intros ? ->. }
  constructor.
  { eapply returns_weaken.
    + eapply (recall_hit_spec_eval twin_globals 1 11 _ _ 9 [8]);
        [reflexivity | reflexivity | exact twin_sims_11 |].
      by repeat constructor.
    + by intros ? ->. }
  constructor.
Qed.

(** Where the code and the spec's reading agree: when the query heads its
    own ranking, dropping the first entry is removing the query. *)
Lemma retrieved_agree (ranking : list nat) (q k : nat) :
  NoDup ranking → head ranking = Some q →
  drop 1 (take (k + 1) ranking) = take k (filter (λ x, x ≠ q) ranking).
Proof.
  intros Hnd Hhead. destruct ranking as [| x rest]; [done |].
  injection Hhead as ->. apply NoDup_cons in Hnd as [Hq _].
  replace (k + 1) with (S k) by lia. cbn [take drop].
  rewrite filter_cons, decide_False by (intros Hne; by apply Hne).
  assert (Hrest : filter (λ x, x ≠ q) rest = rest).
  { induction rest as [| x rest IH]; [done |].
    rewrite filter_cons, decide_True.
    - f_equal. apply IH. intros Hin. apply Hq. by right.
    - intros ->. apply Hq. left. }
  by rewrite Hrest.
Qed.

(** ** C3: [recall_k] may count the query itself *)

(** C3 (code bug).  The claim takes [recall_k(k, mode="embedding")] to be
    the fraction of test queries with an image of their own class among the
    top-[k] most similar images, the query itself excluded.  The code drops
    the first entry of the ranking instead of the query.  On [twin_globals]
    (images 9 and 10, of classes 8 and 9, share one embedding; the test
    queries are images 8, 9, 10, 11 as [build_test_ids] computes them) the
    ranking of query 9 starts with image 10, so image 9 stays in its own
    retrieved list: [recall_k] returns 1/4, while no query has another
    image of its class as nearest neighbour and the recall the claim
    describes is 0. *)
Theorem recall_k_counts_the_query_itself :
  returns (build_test_ids twin_classid_to_ids 8 11)
          (λ ids, ids = test_ids twin_globals) ∧
  returns (most_sim (emb twin_globals) (pixelwise twin_globals) 9 2 "cosine")
          (λ res, res.*1 = [10; 9]) ∧
  returns (recall_k twin_globals 1 "embedding") (λ v, v = (1 / 4)%R) ∧
  returns (recall_k_spec twin_globals 1) (λ v, v = 0%R).
Proof.
  split; [exact twin_test_ids |]. split; [| split].
  - eapply returns_weaken.
    + apply (most_sim_cosine_eval twin_emb twin_emb 9 2 [1; 0]%R _
               eq_refl twin_sims_9_10).
    + intros res ->. exact twin_ranking_9_10.
  - unfold recall_k, recall_fraction.
    eapply returns_bind; [apply (count_hits_eval _ _ _ 0 twin_hits_code) |].
    intros n ->. rewrite bool_decide_eq_false_2 by done.
    apply returns_ret. simpl. lra.
  - unfold recall_k_spec, recall_fraction.
    eapply returns_bind; [apply (count_hits_eval _ _ _ 0 twin_hits_spec) |].
    intros n ->. rewrite bool_decide_eq_false_2 by done.
    apply returns_ret. simpl. lra.
Qed.
